(** * lunatic: typed calls from C++ into Lua ([lua_function.hpp])

  A shallow embedding of [lunatic::push_argument], [lunatic::pop_argument],
  [lunatic::pop_arguments], [detail::lua_function_base] and the three
  specialisations of [lunatic::lua_function], over a small model of the
  part of the Lua C API the header calls. *)

From Stdlib Require Import ZArith Lia Ascii String DecimalString.
From Stdlib Require Import Floats.SpecFloat.
From stdpp Require Import base option list strings gmap.

Local Open Scope Z_scope.

(** ** Host and runtime numbers *)

Module Numbers.

(** C++ [int] (32 bits, two's complement). *)
Definition INT_MIN : Z := - 2 ^ 31.
Definition INT_MAX : Z := 2 ^ 31 - 1.

Definition int_range (z : Z) : Prop := INT_MIN <= z <= INT_MAX.

(** The conversion [int(x)] of a wider signed integer: the value is
    reduced modulo 2^32 into the range of [int]. *)
Definition to_int (z : Z) : Z := (z + 2 ^ 31) mod 2 ^ 32 - 2 ^ 31.

(** [lua_Integer] is a 64 bit signed integer. *)
Definition LUA_MININTEGER : Z := - 2 ^ 63.
Definition LUA_MAXINTEGER : Z := 2 ^ 63 - 1.

(** C++ [float] is IEEE binary32, [double] and [lua_Number] are IEEE
    binary64; values are [spec_float]s that are valid for the format. *)
Definition float_prec : Z := 24.
Definition float_emax : Z := 128.
Definition double_prec : Z := 53.
Definition double_emax : Z := 1024.

Definition is_float (x : spec_float) : bool :=
  valid_binary float_prec float_emax x.
Definition is_double (x : spec_float) : bool :=
  valid_binary double_prec double_emax x.

(** Conversion of a floating-point value to the format [prec], [emax],
    rounding to nearest, ties to even. *)
Definition convert (prec emax : Z) (x : spec_float) : spec_float :=
  match x with
  | S754_finite s m e => binary_round prec emax s m e
  | _ => x
  end.

(** The implicit conversion [float -> double] at [lua_pushnumber(L, arg)]
    and the conversion [float(x)] of a [lua_Number]. *)
Definition float_to_double : spec_float -> spec_float :=
  convert double_prec double_emax.
Definition double_to_float : spec_float -> spec_float :=
  convert float_prec float_emax.

(** [lua_Integer -> lua_Number] ([cast_num]). *)
Definition integer_to_number (z : Z) : spec_float :=
  binary_normalize double_prec double_emax z 0 false.

(** [lua_numbertointeger] after [luaV_tointeger] in its exact mode: a
    float converts to an integer when it has an integral value that fits
    [lua_Integer]. *)
Definition number_to_integer (x : spec_float) : option Z :=
  match x with
  | S754_zero _ => Some 0
  | S754_finite s m e =>
      let a :=
        if 0 <=? e then Some (Z.pos m * 2 ^ e)
        else if Z.pos m mod 2 ^ (- e) =? 0 then Some (Z.pos m / 2 ^ (- e))
        else None in
      match a with
      | Some a =>
          let z := if s then - a else a in
          if (LUA_MININTEGER <=? z) && (z <=? LUA_MAXINTEGER)
          then Some z else None
      | None => None
      end
  | _ => None
  end.

End Numbers.
Export Numbers.

(** ** Lua values and the Lua state

    [lua.hpp] is not part of the repository.  The definitions of this part
    model the Lua 5.3 C API functions that [lua_function.hpp] calls. *)

(** Modelled from the spec: the values of the runtime ("tagged values"),
    missing with [lua.hpp].  Functions and tables are references; tables
    carry no metatable. *)
Inductive lua_value : Type :=
| LNil
| LBoolean (b : bool)
| LInteger (z : Z)
| LNumber (x : spec_float)
| LString (s : string)
| LFunction (f : nat)
| LTable (t : nat).

Definition lua_isfunction_value (v : lua_value) : bool :=
  match v with LFunction _ => true | _ => false end.

Definition luaL_typename (v : lua_value) : string :=
  match v with
  | LNil => "nil"
  | LBoolean _ => "boolean"
  | LInteger _ | LNumber _ => "number"
  | LString _ => "string"
  | LFunction _ => "function"
  | LTable _ => "table"
  end.

(** What running a callee does: it returns a list of values or raises an
    error object, and it may rebind globals. *)
Inductive call_result : Type :=
| Returns (results : list lua_value)
| Raises (err : lua_value).

Definition lua_closure : Type :=
  gmap string lua_value -> list lua_value ->
  call_result * gmap string lua_value.

(** The calls of the C API, as the header issues them. *)
Inductive api_call : Type :=
| GetGlobal (name : string)
| IsFunction (index : Z)
| PushBoolean (b : Z)
| PushInteger (n : Z)
| PushNumber (n : spec_float)
| PushString (s : string)
| PCall (nargs nresults msgh : Z)
| ToBoolean (index : Z)
| ToInteger (index : Z)
| ToNumber (index : Z)
| ToString (index : Z)
| Pop (n : Z).

(** Modelled from the spec: the stack-machine handle [lua_State], missing
    with [lua.hpp].  [stack] lists the slots from the bottom (index 1) to
    the top (index -1), with no bound on their number; [calls] records the
    API calls made so far, oldest first. *)
Record lua_State : Type := mk_lua_State {
  stack : list lua_value;
  globals : gmap string lua_value;
  closures : nat -> lua_closure;
  calls : list api_call
}.

Definition set_stack (st : list lua_value) (L : lua_State) : lua_State :=
  mk_lua_State st (globals L) (closures L) (calls L).

Definition set_globals (g : gmap string lua_value) (L : lua_State)
  : lua_State :=
  mk_lua_State (stack L) g (closures L) (calls L).

Definition record_call (c : api_call) (L : lua_State) : lua_State :=
  mk_lua_State (stack L) (globals L) (closures L) (calls L ++ [c]).

Definition lua_gettop (L : lua_State) : Z := Z.of_nat (length (stack L)).

(** ** Computations on the shared state

    A call either returns with a new state, stops the process in a failed
    [assert], or has undefined behaviour. *)
Inductive outcome (A : Type) : Type :=
| Done (a : A) (L : lua_State)
| Aborted (L : lua_State)
| Undefined.
Arguments Done {A} a L.
Arguments Aborted {A} L.
Arguments Undefined {A}.

Definition run (A : Type) : Type := lua_State -> outcome A.

Definition ret {A} (a : A) : run A := fun L => Done a L.

Definition bind {A B} (c : run A) (k : A -> run B) : run B :=
  fun L =>
    match c L with
    | Done a L' => k a L'
    | Aborted L' => Aborted L'
    | Undefined => Undefined
    end.

Declare Scope run_scope.
Delimit Scope run_scope with run.
Notation "x <- c ;; k" := (bind c (fun x => k))
  (at level 100, c at next level, right associativity) : run_scope.
Notation "c ;; k" := (bind c (fun _ => k))
  (at level 100, right associativity) : run_scope.
Local Open Scope run_scope.

(** [assert(c)] of <cassert>. *)
Definition assert (c : bool) : run unit :=
  fun L => if c then Done tt L else Aborted L.

Definition modify (f : lua_State -> lua_State) : run unit :=
  fun L => Done tt (f L).

(** ** C strings *)

(** The C string that a [char] pointer to the buffer [s] denotes: the
    characters before the first NUL. *)
Fixpoint c_string (s : string) : string :=
  match s with
  | EmptyString => EmptyString
  | String c r =>
      if Ascii.eqb c Ascii.zero then EmptyString else String c (c_string r)
  end.

(** A string without a NUL character. *)
Fixpoint nul_free (s : string) : bool :=
  match s with
  | EmptyString => true
  | String c r => negb (Ascii.eqb c Ascii.zero) && nul_free r
  end.

(** [std::string::c_str()]: the buffer of the string, never null. *)
Definition c_str (s : string) : string := s.

(** The constructor of [std::string] from a [char] pointer; a null
    pointer is not a valid argument. *)
Definition std_string (p : option string) : run string :=
  match p with
  | Some s => ret (c_string s)
  | None => fun _ => Undefined
  end.

(** ** The Lua C API *)

(** Modelled from the spec: the conversions of the runtime between strings
    and numbers ([l_str2int], [l_str2d], [lua_integer2str],
    [lua_number2str]), missing with [lua.hpp]; they are what "native
    coercion rules" refers to for strings. *)
Class LuaConversions : Type := {
  l_str2int : string -> option Z;
  l_str2d : string -> option spec_float;
  lua_integer2str : Z -> string;
  lua_number2str : spec_float -> string
}.

(** Position in [stack] of an acceptable index, [None] for an index that
    names no slot ([LUA_TNONE]). *)
Definition index2pos (L : lua_State) (index : Z) : option nat :=
  if 0 <? index then
    if index <=? lua_gettop L then Some (Z.to_nat (index - 1)) else None
  else if index <? 0 then
    if - index <=? lua_gettop L then Some (Z.to_nat (lua_gettop L + index))
    else None
  else None.

(** The value at an index; an index that names no slot reads as nil. *)
Definition index2value (L : lua_State) (index : Z) : lua_value :=
  match index2pos L index with
  | Some i => default LNil (stack L !! i)
  | None => LNil
  end.

Definition push_value (v : lua_value) (L : lua_State) : lua_State :=
  set_stack (stack L ++ [v]) L.

Section API.
Context {conv : LuaConversions}.

(** Modelled from the spec: [lua_getglobal], "resolve_global(name)"; the
    value bound to the name, nil when there is none, is pushed. *)
Definition lua_getglobal (name : string) : run unit :=
  modify (fun L =>
    push_value (default LNil (globals L !! c_string name))
      (record_call (GetGlobal (c_string name)) L)).

(** Modelled from the spec: [lua_isfunction], "is callable". *)
Definition lua_isfunction (index : Z) : run bool :=
  fun L =>
    Done (lua_isfunction_value (index2value L index))
      (record_call (IsFunction index) L).

(** Modelled from the spec: [lua_pushboolean], "push(value)". *)
Definition lua_pushboolean (b : Z) : run unit :=
  modify (fun L =>
    push_value (LBoolean (negb (b =? 0))) (record_call (PushBoolean b) L)).

(** Modelled from the spec: [lua_pushinteger], "push(value)". *)
Definition lua_pushinteger (n : Z) : run unit :=
  modify (fun L => push_value (LInteger n) (record_call (PushInteger n) L)).

(** Modelled from the spec: [lua_pushnumber], "push(value)". *)
Definition lua_pushnumber (n : spec_float) : run unit :=
  modify (fun L => push_value (LNumber n) (record_call (PushNumber n) L)).

(** Modelled from the spec: [lua_pushstring], "push(value)"; the runtime
    pushes its own copy of the C string. *)
Definition lua_pushstring (s : string) : run unit :=
  modify (fun L =>
    push_value (LString (c_string s))
      (record_call (PushString (c_string s)) L)).

(** Modelled from the spec: [lua_toboolean], "read(stack_index)"; only nil
    and false are false. *)
Definition lua_toboolean (index : Z) : run Z :=
  fun L =>
    Done
      match index2value L index with
      | LNil | LBoolean false => 0
      | _ => 1
      end
      (record_call (ToBoolean index) L).

(** [luaO_str2num]: an integer numeral, else a float numeral. *)
Definition luaO_str2num (s : string) : option lua_value :=
  match l_str2int s with
  | Some z => Some (LInteger z)
  | None =>
      match l_str2d s with
      | Some x => Some (LNumber x)
      | None => None
      end
  end.

Definition numeral_tointeger (v : lua_value) : option Z :=
  match v with
  | LInteger z => Some z
  | LNumber x => number_to_integer x
  | _ => None
  end.

Definition numeral_tonumber (v : lua_value) : option spec_float :=
  match v with
  | LInteger z => Some (integer_to_number z)
  | LNumber x => Some x
  | _ => None
  end.

(** [luaV_tointeger] and [luaV_tonumber_]: strings are converted to
    numbers first. *)
Definition luaV_tointeger (v : lua_value) : option Z :=
  match v with
  | LString s => luaO_str2num s ≫= numeral_tointeger
  | _ => numeral_tointeger v
  end.

Definition luaV_tonumber (v : lua_value) : option spec_float :=
  match v with
  | LString s => luaO_str2num s ≫= numeral_tonumber
  | _ => numeral_tonumber v
  end.

(** Modelled from the spec: [lua_tointeger], "read(stack_index)"; 0 when
    the value does not convert. *)
Definition lua_tointeger (index : Z) : run Z :=
  fun L =>
    Done (default 0 (luaV_tointeger (index2value L index)))
      (record_call (ToInteger index) L).

(** Modelled from the spec: [lua_tonumber], "read(stack_index)"; 0 when the
    value does not convert. *)
Definition lua_tonumber (index : Z) : run spec_float :=
  fun L =>
    Done
      (default (S754_zero false) (luaV_tonumber (index2value L index)))
      (record_call (ToNumber index) L).

(** Modelled from the spec: [lua_tostring], "read(stack_index)"; a number
    is replaced in its slot by its string, and the result is a null pointer
    for a value that is neither a string nor a number. *)
Definition lua_tostring (index : Z) : run (option string) :=
  fun L =>
    let L1 := record_call (ToString index) L in
    let converted (s : string) :=
      match index2pos L index with
      | Some i => Done (Some s) (set_stack (<[i := LString s]> (stack L)) L1)
      | None => Done (Some s) L1
      end in
    match index2value L index with
    | LString s => Done (Some s) L1
    | LInteger z => converted (lua_integer2str z)
    | LNumber x => converted (lua_number2str x)
    | _ => Done None L1
    end.

(** The results of a call adjusted to [nresults] values: extra values are
    dropped, missing ones are nil; [LUA_MULTRET] keeps them all. *)
Definition LUA_MULTRET : Z := -1.

Definition adjust_results (nresults : Z) (rs : list lua_value)
  : list lua_value :=
  if nresults =? LUA_MULTRET then rs
  else take (Z.to_nat nresults) (rs ++ replicate (Z.to_nat nresults) LNil).

Definition LUA_OK : Z := 0.
Definition LUA_ERRRUN : Z := 2.

(** Modelled from the spec: [lua_pcall], "protected_call(num_args,
    num_results) -> status".  The callee and its [nargs] arguments are
    removed from the stack; on success the adjusted results are pushed and
    the status is [LUA_OK], on an error the error object is pushed and the
    status is not zero.  The stack must hold the callee and the arguments. *)
Definition lua_pcall (nargs nresults msgh : Z) : run Z :=
  fun L =>
    let L1 := record_call (PCall nargs nresults msgh) L in
    let n := length (stack L) in
    let k := Z.to_nat nargs in
    if (nargs <? 0) || (lua_gettop L <? nargs + 1) then Undefined
    else
      let base := take (n - k - 1) (stack L) in
      let args := drop (n - k) (stack L) in
      match default LNil (stack L !! (n - k - 1)%nat) with
      | LFunction f =>
          match closures L f (globals L) args with
          | (Returns rs, g) =>
              Done LUA_OK
                (set_globals g
                   (set_stack (base ++ adjust_results nresults rs) L1))
          | (Raises err, g) =>
              Done LUA_ERRRUN (set_globals g (set_stack (base ++ [err]) L1))
          end
      | v =>
          Done LUA_ERRRUN
            (set_stack
               (base ++
                [LString ("attempt to call a " +:+ luaL_typename v +:+
                          " value")]) L1)
      end.

(** Modelled from the spec: [lua_pop], "pop(count)"; the stack must hold
    [n] slots. *)
Definition lua_pop (n : Z) : run unit :=
  fun L =>
    if (n <? 0) || (lua_gettop L <? n) then Undefined
    else
      Done tt
        (set_stack (take (length (stack L) - Z.to_nat n) (stack L))
           (record_call (Pop n) L)).

End API.

(** ** [lua_function.hpp] *)

(** The types with a specialisation of [push_argument] and
    [pop_argument]. *)
Inductive cpp_type : Type := TBool | TInt | TFloat | TDouble | TString.

(** The values of a type: [bool], [int] (see [int_range]), [float] and
    [double] (see [is_float], [is_double]), [std::string]. *)
Definition host (T : cpp_type) : Type :=
  match T with
  | TBool => bool
  | TInt => Z
  | TFloat => spec_float
  | TDouble => spec_float
  | TString => string
  end.

(** A value that inhabits its C++ type. *)
Definition well_formed (T : cpp_type) : host T -> Prop :=
  match T with
  | TBool => fun _ => True
  | TInt => fun z => int_range z
  | TFloat => fun x => is_float x = true
  | TDouble => fun x => is_double x = true
  | TString => fun _ => True
  end.

(** An argument of a call together with its deduced type. *)
Definition argument : Type := sigT host.
Definition arg (T : cpp_type) (v : host T) : argument := existT T v.

(** [std::tuple<Ts...>]. *)
Fixpoint tuple (Ts : list cpp_type) : Type :=
  match Ts with
  | [] => unit
  | T :: Ts' => host T * tuple Ts'
  end.

Definition make_tuple {T : cpp_type} (x : host T) : tuple [T] := (x, tt).

Fixpoint tuple_cat {Ts Us : list cpp_type}
  : tuple Ts -> tuple Us -> tuple (Ts ++ Us) :=
  match Ts with
  | [] => fun _ u => u
  | T :: Ts' => fun t u => (fst t, tuple_cat (snd t) u)
  end.

(** The elements of a tuple, first to last, each with its type. *)
Fixpoint tuple_elements {Ts : list cpp_type} : tuple Ts -> list argument :=
  match Ts with
  | [] => fun _ => []
  | T :: Ts' => fun t => arg T (fst t) :: tuple_elements (snd t)
  end.

Section Header.
Context {conv : LuaConversions}.

(** [template<> void push_argument<T>(lua_State* L, T arg)], lines 25-53. *)
Definition push_argument (T : cpp_type) : host T -> run unit :=
  match T with
  | TBool => fun arg => lua_pushboolean (if arg then 1 else 0)
  | TInt => fun arg => lua_pushinteger arg
  | TFloat => fun arg => lua_pushnumber (float_to_double arg)
  | TDouble => fun arg => lua_pushnumber arg
  | TString => fun arg => lua_pushstring (c_str arg)
  end.

(** [push_argument(L, first, args...)], lines 18-23: the overload for one
    value when the pack is empty, else the first value and then the
    rest. *)
Fixpoint push_arguments (first : argument) (args : list argument)
  : run unit :=
  match args with
  | [] => push_argument (projT1 first) (projT2 first)
  | second :: rest =>
      push_argument (projT1 first) (projT2 first) ;;
      push_arguments second rest
  end.

(** [template<> T pop_argument<T>(lua_State* L, int index)], lines 60-88. *)
Definition pop_argument (T : cpp_type) (index : Z) : run (host T) :=
  match T with
  | TBool => b <- lua_toboolean index ;; ret (negb (b =? 0))
  | TInt => n <- lua_tointeger index ;; ret (to_int n)
  | TFloat => n <- lua_tonumber index ;; ret (double_to_float n)
  | TDouble => n <- lua_tonumber index ;; ret n
  | TString => p <- lua_tostring index ;; std_string p
  end.

(** [pop_arguments<Ret>] and [pop_arguments<Ret1, Ret2, RetN...>], lines
    90-101. *)
Fixpoint pop_arguments (Ret1 : cpp_type) (RetN : list cpp_type) (index : Z)
  : run (tuple (Ret1 :: RetN)) :=
  match RetN with
  | [] => x <- pop_argument Ret1 index ;; ret (make_tuple x)
  | Ret2 :: RetN' =>
      x <- pop_argument Ret1 index ;;
      let head := make_tuple x in
      tail <- pop_arguments Ret2 RetN' (index + 1) ;;
      ret (tuple_cat head tail)
  end.

(** [detail::lua_function_base::get_global_function], lines 119-123; the
    object is its [name], the [state] it points to is the state the
    computation runs on. *)
Definition get_global_function (name : string) : run unit :=
  lua_getglobal (c_str name) ;;
  c <- lua_isfunction (-1) ;;
  assert c.

End Header.

(** [template<typename Ret> class lua_function<Ret>], lines 131-170. *)
Module lua_function_Ret.
Section Class.
Context {conv : LuaConversions}.
Variable Ret : cpp_type.

Definition call_lua_func (num_args : Z) : run (host Ret) :=
  call_ret <- lua_pcall num_args 1 0 ;;
  assert (call_ret =? 0) ;;
  ret_ <- pop_argument Ret (-1) ;;
  lua_pop 1 ;;
  ret ret_.

(** [Ret operator()()]. *)
Definition call0 (name : string) : run (host Ret) :=
  get_global_function name ;;
  call_lua_func 0.

(** [Ret operator()(T arg)]. *)
Definition call1 (name : string) (a : argument) : run (host Ret) :=
  get_global_function name ;;
  push_argument (projT1 a) (projT2 a) ;;
  call_lua_func 1.

(** [Ret operator()(T first, Args&&... args)]; the pack is
    [second :: rest], with one argument the overload above is chosen. *)
Definition callN (name : string) (first second : argument)
  (rest : list argument) : run (host Ret) :=
  get_global_function name ;;
  push_argument (projT1 first) (projT2 first) ;;
  push_arguments second rest ;;
  call_lua_func (Z.of_nat (length (second :: rest)) + 1).

End Class.
End lua_function_Ret.

(** [template<typename Ret1, typename... RetN>
    class lua_function<Ret1, RetN...>], lines 174-214. *)
Module lua_function_Ret1_RetN.
Section Class.
Context {conv : LuaConversions}.
Variable Ret1 : cpp_type.
Variable RetN : list cpp_type.

Definition call_lua_func (num_args : Z) : run (tuple (Ret1 :: RetN)) :=
  let num_ret_values := Z.of_nat (length RetN) + 1 in
  call_ret <- lua_pcall num_args num_ret_values 0 ;;
  assert (call_ret =? 0) ;;
  ret_ <- pop_arguments Ret1 RetN (- num_ret_values) ;;
  lua_pop num_ret_values ;;
  ret ret_.

Definition call0 (name : string) : run (tuple (Ret1 :: RetN)) :=
  get_global_function name ;;
  call_lua_func 0.

Definition call1 (name : string) (a : argument)
  : run (tuple (Ret1 :: RetN)) :=
  get_global_function name ;;
  push_argument (projT1 a) (projT2 a) ;;
  call_lua_func 1.

Definition callN (name : string) (first second : argument)
  (rest : list argument) : run (tuple (Ret1 :: RetN)) :=
  get_global_function name ;;
  push_argument (projT1 first) (projT2 first) ;;
  push_arguments second rest ;;
  call_lua_func (Z.of_nat (length (second :: rest)) + 1).

End Class.
End lua_function_Ret1_RetN.

(** [template<> class lua_function<void>], lines 218-254. *)
Module lua_function_void.
Section Class.
Context {conv : LuaConversions}.

Definition call_lua_func (num_args : Z) : run unit :=
  call_ret <- lua_pcall num_args 0 0 ;;
  assert (call_ret =? 0).

Definition call0 (name : string) : run unit :=
  get_global_function name ;;
  call_lua_func 0.

Definition call1 (name : string) (a : argument) : run unit :=
  get_global_function name ;;
  push_argument (projT1 a) (projT2 a) ;;
  call_lua_func 1.

Definition callN (name : string) (first second : argument)
  (rest : list argument) : run unit :=
  get_global_function name ;;
  push_argument (projT1 first) (projT2 first) ;;
  push_arguments second rest ;;
  call_lua_func (Z.of_nat (length (second :: rest)) + 1).

End Class.
End lua_function_void.

(** ** Selecting a specialisation and an overload *)

(** The declared result types of [lua_function<...>]: [void], one type, or
    two and more types (one type selects [lua_function<Ret>]). *)
Inductive signature : Type :=
| Sig_void
| Sig_Ret (Ret : cpp_type)
| Sig_Ret1_RetN (Ret1 Ret2 : cpp_type) (RetN : list cpp_type).

Definition result_type (sig : signature) : Type :=
  match sig with
  | Sig_void => unit
  | Sig_Ret Ret => host Ret
  | Sig_Ret1_RetN Ret1 Ret2 RetN => tuple (Ret1 :: Ret2 :: RetN)
  end.

(** The number of results a signature declares. *)
Definition num_results (sig : signature) : Z :=
  match sig with
  | Sig_void => 0
  | Sig_Ret _ => 1
  | Sig_Ret1_RetN _ _ RetN => Z.of_nat (length RetN) + 2
  end.

Section Dispatch.
Context {conv : LuaConversions}.

Definition call_lua_func (sig : signature) (num_args : Z)
  : run (result_type sig) :=
  match sig with
  | Sig_void => lua_function_void.call_lua_func num_args
  | Sig_Ret Ret => lua_function_Ret.call_lua_func Ret num_args
  | Sig_Ret1_RetN Ret1 Ret2 RetN =>
      lua_function_Ret1_RetN.call_lua_func Ret1 (Ret2 :: RetN) num_args
  end.

Definition call0 (sig : signature) (name : string) : run (result_type sig) :=
  match sig with
  | Sig_void => lua_function_void.call0 name
  | Sig_Ret Ret => lua_function_Ret.call0 Ret name
  | Sig_Ret1_RetN Ret1 Ret2 RetN =>
      lua_function_Ret1_RetN.call0 Ret1 (Ret2 :: RetN) name
  end.

Definition call1 (sig : signature) (name : string) (a : argument)
  : run (result_type sig) :=
  match sig with
  | Sig_void => lua_function_void.call1 name a
  | Sig_Ret Ret => lua_function_Ret.call1 Ret name a
  | Sig_Ret1_RetN Ret1 Ret2 RetN =>
      lua_function_Ret1_RetN.call1 Ret1 (Ret2 :: RetN) name a
  end.

Definition callN (sig : signature) (name : string)
  (first second : argument) (rest : list argument)
  : run (result_type sig) :=
  match sig with
  | Sig_void => lua_function_void.callN name first second rest
  | Sig_Ret Ret => lua_function_Ret.callN Ret name first second rest
  | Sig_Ret1_RetN Ret1 Ret2 RetN =>
      lua_function_Ret1_RetN.callN Ret1 (Ret2 :: RetN) name first second rest
  end.

(** The call expression [f(args...)]: overload resolution by the number of
    arguments. *)
Definition call (sig : signature) (name : string) (args : list argument)
  : run (result_type sig) :=
  match args with
  | [] => call0 sig name
  | [a] => call1 sig name a
  | first :: second :: rest => callN sig name first second rest
  end.

End Dispatch.

(** ** One value on the stack

    What encoding leaves in the pushed slot and what decoding reads from a
    slot, as functions of the value alone; [push_argument_run] and
    [pop_argument_run] relate them to [push_argument] and
    [pop_argument]. *)

Definition encode (a : argument) : lua_value :=
  match a with
  | existT TBool b => LBoolean b
  | existT TInt z => LInteger z
  | existT TFloat x => LNumber (float_to_double x)
  | existT TDouble x => LNumber x
  | existT TString s => LString (c_string s)
  end.

Definition push_call (a : argument) : api_call :=
  match a with
  | existT TBool b => PushBoolean (if b then 1 else 0)
  | existT TInt z => PushInteger z
  | existT TFloat x => PushNumber (float_to_double x)
  | existT TDouble x => PushNumber x
  | existT TString s => PushString (c_string s)
  end.

Definition read_call (T : cpp_type) (index : Z) : api_call :=
  match T with
  | TBool => ToBoolean index
  | TInt => ToInteger index
  | TFloat | TDouble => ToNumber index
  | TString => ToString index
  end.

Section Slots.
Context {conv : LuaConversions}.

Definition decode (T : cpp_type) (v : lua_value) : option (host T) :=
  match T with
  | TBool =>
      Some match v with LNil | LBoolean false => false | _ => true end
  | TInt => Some (to_int (default 0 (luaV_tointeger v)))
  | TFloat =>
      Some (double_to_float (default (S754_zero false) (luaV_tonumber v)))
  | TDouble => Some (default (S754_zero false) (luaV_tonumber v))
  | TString =>
      match v with
      | LString s => Some (c_string s)
      | LInteger z => Some (c_string (lua_integer2str z))
      | LNumber x => Some (c_string (lua_number2str x))
      | _ => None
      end
  end.

(** The slot after it was read as a [T]: reading a number as a string
    leaves the string in the slot. *)
Definition after_read (T : cpp_type) (v : lua_value) : lua_value :=
  match T, v with
  | TString, LInteger z => LString (lua_integer2str z)
  | TString, LNumber x => LString (lua_number2str x)
  | _, _ => v
  end.

(** The stack with the slot at [index] replaced. *)
Definition poke (L : lua_State) (index : Z) (v : lua_value)
  : list lua_value :=
  match index2pos L index with
  | Some i => <[i := v]> (stack L)
  | None => stack L
  end.

(** Decoding consecutive slots as the types [Ts], first to last. *)
Fixpoint decode_all (Ts : list cpp_type) (vs : list lua_value)
  : option (tuple Ts) :=
  match Ts with
  | [] => Some tt
  | T :: Ts' =>
      match vs with
      | v :: vs' =>
          x ← decode T v; t ← decode_all Ts' vs'; Some (x, t)
      | [] => None
      end
  end.

Fixpoint read_calls (Ts : list cpp_type) (index : Z) : list api_call :=
  match Ts with
  | [] => []
  | T :: Ts' => read_call T index :: read_calls Ts' (index + 1)
  end.

(** ** The states a call goes through *)

(** The value bound to the name of a [lua_function]. *)
Definition global_value (L : lua_State) (name : string) : lua_value :=
  default LNil (globals L !! c_string name).

(** After [get_global_function]: the value of the global is on top. *)
Definition resolved (name : string) (L : lua_State) : lua_State :=
  mk_lua_State (stack L ++ [global_value L name]) (globals L) (closures L)
    (calls L ++ [GetGlobal (c_string name); IsFunction (-1)]).

(** After the arguments were pushed. *)
Definition pushed (name : string) (args : list argument) (L : lua_State)
  : lua_State :=
  mk_lua_State (stack L ++ global_value L name :: map encode args)
    (globals L) (closures L)
    (calls L ++ [GetGlobal (c_string name); IsFunction (-1)] ++
     map push_call args).

(** After [lua_pcall] put [top] in the place of callee and arguments. *)
Definition called (name : string) (args : list argument) (nresults : Z)
  (top : list lua_value) (g : gmap string lua_value) (L : lua_State)
  : lua_State :=
  mk_lua_State (stack L ++ top) g (closures L)
    (calls L ++ [GetGlobal (c_string name); IsFunction (-1)] ++
     map push_call args ++ [PCall (Z.of_nat (length args)) nresults 0]).

(** What a signature does with the results on the stack. *)
Definition decode_results (sig : signature) (vs : list lua_value)
  : option (result_type sig) :=
  match sig with
  | Sig_void => Some tt
  | Sig_Ret Ret => decode Ret (default LNil (vs !! 0%nat))
  | Sig_Ret1_RetN Ret1 Ret2 RetN => decode_all (Ret1 :: Ret2 :: RetN) vs
  end.

Definition result_calls (sig : signature) : list api_call :=
  match sig with
  | Sig_void => []
  | Sig_Ret Ret => [read_call Ret (-1); Pop 1]
  | Sig_Ret1_RetN Ret1 Ret2 RetN =>
      read_calls (Ret1 :: Ret2 :: RetN) (- num_results sig) ++
      [Pop (num_results sig)]
  end.

(** After a call returned: the stack is the one before the call. *)
Definition returned (sig : signature) (name : string)
  (args : list argument) (g : gmap string lua_value) (L : lua_State)
  : lua_State :=
  mk_lua_State (stack L) g (closures L)
    (calls L ++ [GetGlobal (c_string name); IsFunction (-1)] ++
     map push_call args ++
     [PCall (Z.of_nat (length args)) (num_results sig) 0] ++
     result_calls sig).

(** An argument that the runtime represents exactly: a value of its type,
    and for a string one without a NUL character. *)
Definition faithful (a : argument) : Prop :=
  well_formed (projT1 a) (projT2 a) /\
  match a with
  | existT TString s => nul_free s = true
  | _ => True
  end.

(** ** The call operator as one operation (section 4.3)

    "resolves the name to a callable on the stack, encodes all arguments
    left-to-right, performs the call requesting a fixed, statically-known
    number of results, decodes the results, and restores stack balance",
    for any number K of arguments. *)

Fixpoint push_all (args : list argument) : run unit :=
  match args with
  | [] => ret tt
  | a :: rest => push_argument (projT1 a) (projT2 a) ;; push_all rest
  end.

Definition bound_call (sig : signature) (name : string)
  (args : list argument) : run (result_type sig) :=
  get_global_function name ;;
  push_all args ;;
  call_lua_func sig (Z.of_nat (length args)).

End Slots.

(** ** Declared types and runtime values *)

(** The result types a signature declares, first to last. *)
Definition declared_types (sig : signature) : list cpp_type :=
  match sig with
  | Sig_void => []
  | Sig_Ret Ret => [Ret]
  | Sig_Ret1_RetN Ret1 Ret2 RetN => Ret1 :: Ret2 :: RetN
  end.

Definition is_string_type (T : cpp_type) : bool :=
  match T with TString => true | _ => false end.

(** What [pop_argument<T>] returns for a nil slot, for the types other
    than [std::string]. *)
Definition zero_value (T : cpp_type) : host T :=
  match T with
  | TBool => false
  | TInt => 0
  | TFloat => S754_zero false
  | TDouble => S754_zero false
  | TString => EmptyString
  end.

(** [lua_isstring]: the value is a string or a number, the values for
    which [lua_tostring] returns a string. *)
Definition lua_isstring_value (v : lua_value) : bool :=
  match v with
  | LString _ | LInteger _ | LNumber _ => true
  | _ => false
  end.

(** A value that fits the runtime's representation: an integer is a
    [lua_Integer], a float is a [lua_Number]. *)
Definition lua_value_ok (v : lua_value) : Prop :=
  match v with
  | LInteger z => LUA_MININTEGER <= z <= LUA_MAXINTEGER
  | LNumber x => is_double x = true
  | _ => True
  end.

(** The values a call returned, first to last, each with its type. *)
Definition result_elements (sig : signature)
  : result_type sig -> list argument :=
  match sig with
  | Sig_void => fun _ => []
  | Sig_Ret Ret => fun r => [arg Ret r]
  | Sig_Ret1_RetN Ret1 Ret2 RetN =>
      fun t => tuple_elements (Ts := Ret1 :: Ret2 :: RetN) t
  end.

(** ** Values that the runtime represents *)

(** Two floating-point values, of any two formats, that are the same
    number. *)
Definition same_value (x y : spec_float) : Prop :=
  match x, y with
  | S754_zero s, S754_zero s' => s = s'
  | S754_infinity s, S754_infinity s' => s = s'
  | S754_nan, S754_nan => True
  | S754_finite s m e, S754_finite s' m' e' =>
      s = s' /\
      Z.pos m * 2 ^ (e - Z.min e e') = Z.pos m' * 2 ^ (e' - Z.min e e')
  | _, _ => False
  end.

(** A [float] or [double] that is exactly representable in the native
    numeric representation of the runtime: some [lua_Number] is the same
    number.  The other types have no such condition. *)
Definition exactly_representable (T : cpp_type) : host T -> Prop :=
  match T with
  | TFloat => fun x => exists n, is_double n = true /\ same_value x n
  | TDouble => fun x => exists n, is_double n = true /\ same_value x n
  | _ => fun _ => True
  end.

(** ** A concrete runtime, for running the definitions *)

Module Demo.

(** No string is a numeral, every number prints as the empty string. *)
#[export] Instance conversions : LuaConversions := {|
  l_str2int := fun _ => None;
  l_str2d := fun _ => None;
  lua_integer2str := fun _ => EmptyString;
  lua_number2str := fun _ => EmptyString
|}.

(** [function add(x, y) return x + y end] on integers. *)
Definition add : lua_closure :=
  fun g args =>
    match args with
    | LInteger x :: LInteger y :: _ => (Returns [LInteger (x + y)], g)
    | _ => (Raises (LString "attempt to perform arithmetic"), g)
    end.

(** [function divmod(x, y) return x // y, x % y end] on integers. *)
Definition divmod : lua_closure :=
  fun g args =>
    match args with
    | LInteger x :: LInteger y :: _ =>
        if y =? 0 then (Raises (LString "attempt to perform 'n//0'"), g)
        else (Returns [LInteger (x / y); LInteger (x mod y)], g)
    | _ => (Raises (LString "attempt to perform arithmetic"), g)
    end.

(** [function noop() end]. *)
Definition noop : lua_closure := fun g _ => (Returns [], g).

(** [function echo(...) return ... end]. *)
Definition echo : lua_closure := fun g args => (Returns args, g).

(** [function fail() error("boom") end]. *)
Definition fail : lua_closure := fun g _ => (Raises (LString "boom"), g).

Definition demo_closures (f : nat) : lua_closure :=
  match f with
  | 0%nat => add
  | 1%nat => divmod
  | 2%nat => noop
  | 3%nat => echo
  | _ => fail
  end.

Definition demo_globals : gmap string lua_value :=
  <["add" := LFunction 0]>
  (<["divmod" := LFunction 1]>
  (<["noop" := LFunction 2]>
  (<["echo" := LFunction 3]>
  (<["fail" := LFunction 4]>
  (<["bad" := LInteger 7]> ∅))))).

(** The three characters a, NUL, b. *)
Definition with_nul : string :=
  String "a" (String Ascii.zero (String "b" EmptyString)).

(** A state with two slots in use by the embedder. *)
Definition demo_state : lua_State :=
  mk_lua_State [LInteger 11; LString "kept"] demo_globals demo_closures [].

End Demo.

(** A runtime that prints and reads integers in decimal. *)
Module DecimalDemo.

(** [lua_integer2str]: "%lld". *)
Definition integer2str (z : Z) : string :=
  NilZero.string_of_int (Z.to_int z).

(** [lua_number2str] ("%.14g", with ".0" added to what looks like an
    integer) for the zeros, the infinities and the floats with an
    integral value of at most 14 digits; the other floats are not printed
    here. *)
Definition number2str (x : spec_float) : string :=
  match x with
  | S754_zero true => "-0.0"
  | S754_infinity false => "inf"
  | S754_infinity true => "-inf"
  | _ =>
      match number_to_integer x with
      | Some z =>
          if Z.abs z <? 10 ^ 14 then integer2str z +:+ ".0"
          else EmptyString
      | None => EmptyString
      end
  end.

(** [l_str2int] on a decimal numeral without spaces around it. *)
Definition str2int (s : string) : option Z :=
  option_map Z.of_int (NilZero.int_of_string s).

#[export] Instance conversions : LuaConversions := {|
  l_str2int := str2int;
  l_str2d := fun _ => None;
  lua_integer2str := integer2str;
  lua_number2str := number2str
|}.

End DecimalDemo.

(** * Properties *)

(** ** Numbers and strings *)

Lemma to_int_id (z : Z) : int_range z -> to_int z = z.
Proof.
  unfold int_range, INT_MIN, INT_MAX, to_int. intros Hz.
  rewrite Z.mod_small; lia.
Qed.

Lemma to_int_range (z : Z) : int_range (to_int z).
Proof.
  unfold int_range, INT_MIN, INT_MAX, to_int.
  pose proof (Z.mod_pos_bound (z + 2 ^ 31) (2 ^ 32)). lia.
Qed.

Lemma to_int_congruent (z : Z) : to_int z mod 2 ^ 32 = z mod 2 ^ 32.
Proof.
  unfold to_int.
  rewrite Zminus_mod_idemp_l. f_equal. lia.
Qed.

Lemma c_string_nul_free (s : string) : nul_free s = true -> c_string s = s.
Proof.
  induction s as [|c r IH]; simpl; [reflexivity|].
  intros Hs. apply andb_true_iff in Hs as [Hc Hr].
  destruct (Ascii.eqb c Ascii.zero); [discriminate|].
  now rewrite IH.
Qed.

Lemma c_string_is_nul_free (s : string) : nul_free (c_string s) = true.
Proof.
  induction s as [|c r IH]; simpl; [reflexivity|].
  destruct (Ascii.eqb c Ascii.zero) eqn:Ec; simpl; [reflexivity|].
  now rewrite Ec, IH.
Qed.

Lemma c_string_idemp (s : string) : c_string (c_string s) = c_string s.
Proof. apply c_string_nul_free, c_string_is_nul_free. Qed.

(** ** Conversions between [float] and [double] *)

Lemma iter_pos_nat {A} (f : A -> A) (p : positive) (x : A) :
  SpecFloat.iter_pos f p x = Nat.iter (Pos.to_nat p) f x.
Proof.
  revert x. induction p as [p IH|p IH|]; intros x; simpl SpecFloat.iter_pos.
  - rewrite !IH, Pos2Nat.inj_xI, <- Nat.iter_succ_r.
    replace (S (2 * Pos.to_nat p)) with (Pos.to_nat p + S (Pos.to_nat p))%nat by lia.
    now rewrite Nat.iter_add.
  - rewrite !IH, Pos2Nat.inj_xO.
    replace (2 * Pos.to_nat p)%nat with (Pos.to_nat p + Pos.to_nat p)%nat by lia.
    now rewrite Nat.iter_add.
  - reflexivity.
Qed.

Lemma digits2_pos_shift (m : positive) (n : nat) :
  Z.pos (digits2_pos (Nat.iter n xO m)) = Z.pos (digits2_pos m) + Z.of_nat n.
Proof.
  induction n as [|n IH]; [simpl; lia|].
  simpl Nat.iter. simpl digits2_pos. lia.
Qed.

Lemma shr_1_shift (m : positive) (n : nat) :
  Nat.iter n shr_1 (Build_shr_record (Z.pos (Nat.iter n xO m)) false false)
  = Build_shr_record (Z.pos m) false false.
Proof.
  induction n as [|n IH]; [reflexivity|].
  rewrite Nat.iter_succ_r. simpl. exact IH.
Qed.

Lemma binary_round_aux_canonical prec emax s m e :
  canonical_mantissa prec emax m e = true -> e <= emax - prec ->
  binary_round_aux prec emax s (Z.pos m) e loc_Exact = S754_finite s m e.
Proof.
  unfold canonical_mantissa. intros Hc He. apply Z.eqb_eq in Hc.
  unfold binary_round_aux, shr_fexp. simpl Zdigits2.
  rewrite Hc, Z.sub_diag. simpl.
  rewrite Hc, Z.sub_diag. simpl.
  apply Z.leb_le in He. now rewrite He.
Qed.

Lemma pos_iter_nat (m p : positive) :
  Pos.iter xO m p = Nat.iter (Pos.to_nat p) xO m.
Proof. apply Pos2Nat.inj_iter. Qed.

(** Widening a value to a format with a smaller exponent step is exact. *)
Lemma binary_round_widen prec emax s m e (p : positive) :
  fexp prec emax (Z.pos (digits2_pos m) + e) = e - Z.pos p ->
  e - Z.pos p <= emax - prec ->
  binary_round prec emax s m e
  = S754_finite s (Pos.iter xO m p) (e - Z.pos p).
Proof.
  intros Hf He. unfold binary_round, shl_align. rewrite Hf.
  replace (e - Z.pos p - e) with (Z.neg p) by lia.
  apply binary_round_aux_canonical; [|exact He].
  unfold canonical_mantissa. apply Z.eqb_eq.
  rewrite pos_iter_nat, digits2_pos_shift, positive_nat_Z.
  rewrite <- Hf. f_equal. lia.
Qed.

Lemma shr_fexp_shift prec emax m e (p : positive) :
  fexp prec emax (Z.pos (digits2_pos m) + e) = e ->
  shr_fexp prec emax (Z.pos (Pos.iter xO m p)) (e - Z.pos p) loc_Exact
  = (Build_shr_record (Z.pos m) false false, e).
Proof.
  intros Hc. unfold shr_fexp. simpl Zdigits2.
  replace (Z.pos (digits2_pos (Pos.iter xO m p)) + (e - Z.pos p))
    with (Z.pos (digits2_pos m) + e)
    by (rewrite pos_iter_nat, digits2_pos_shift, positive_nat_Z; lia).
  rewrite Hc. replace (e - (e - Z.pos p)) with (Z.pos p) by lia.
  unfold shr, shr_record_of_loc.
  rewrite iter_pos_nat, pos_iter_nat, shr_1_shift.
  f_equal. lia.
Qed.

(** Narrowing a value whose low bits are zero is exact. *)
Lemma binary_round_narrow prec emax s m e (p : positive) :
  bounded prec emax m e = true ->
  binary_round prec emax s (Pos.iter xO m p) (e - Z.pos p)
  = S754_finite s m e.
Proof.
  intros Hb. pose proof Hb as Hb'. unfold bounded, canonical_mantissa in Hb'.
  apply andb_true_iff in Hb' as [Hc He].
  apply Z.eqb_eq in Hc. apply Z.leb_le in He.
  unfold binary_round, shl_align.
  replace (Z.pos (digits2_pos (Pos.iter xO m p)) + (e - Z.pos p))
    with (Z.pos (digits2_pos m) + e)
    by (rewrite pos_iter_nat, digits2_pos_shift, positive_nat_Z; lia).
  rewrite Hc. replace (e - (e - Z.pos p)) with (Z.pos p) by lia.
  unfold binary_round_aux. rewrite shr_fexp_shift by exact Hc.
  cbn [shr_m loc_of_shr_record round_nearest_even].
  unfold shr_fexp. simpl Zdigits2. rewrite Hc, Z.sub_diag.
  cbn [shr shr_record_of_loc shr_m].
  apply Z.leb_le in He. now rewrite He.
Qed.

(** Every [float] survives the conversion to [double] and back. *)
Lemma float_round_trip (x : spec_float) :
  is_float x = true -> double_to_float (float_to_double x) = x.
Proof.
  destruct x as [s|s| |s m e]; try reflexivity.
  unfold is_float. simpl valid_binary. intros Hb.
  pose proof Hb as Hb'. unfold bounded, canonical_mantissa in Hb'.
  apply andb_true_iff in Hb' as [Hc He].
  apply Z.eqb_eq in Hc. apply Z.leb_le in He.
  unfold fexp, emin, float_prec, float_emax in Hc, He.
  pose proof (Pos2Z.is_pos (digits2_pos m)) as Hpos.
  set (d := Z.pos (digits2_pos m)) in *.
  assert (Hp : 0 < 53 - d) by lia.
  destruct (53 - d) as [|p|p] eqn:Ep; try lia.
  unfold float_to_double, double_to_float, convert.
  rewrite (binary_round_widen double_prec double_emax s m e p).
  - now apply binary_round_narrow.
  - unfold fexp, emin, double_prec, double_emax. fold d. lia.
  - unfold double_prec, double_emax. lia.
Qed.

(** The conversion of a [float] is a [double]. *)
Lemma float_to_double_valid (x : spec_float) :
  is_float x = true -> is_double (float_to_double x) = true.
Proof.
  destruct x as [s|s| |s m e]; try reflexivity.
  unfold is_float. simpl valid_binary. intros Hb.
  unfold bounded, canonical_mantissa in Hb.
  apply andb_true_iff in Hb as [Hc He].
  apply Z.eqb_eq in Hc. apply Z.leb_le in He.
  unfold fexp, emin, float_prec, float_emax in Hc, He.
  pose proof (Pos2Z.is_pos (digits2_pos m)) as Hpos.
  set (d := Z.pos (digits2_pos m)) in *.
  destruct (53 - d) as [|p|p] eqn:Ep; try lia.
  unfold float_to_double, convert.
  rewrite (binary_round_widen double_prec double_emax s m e p).
  - unfold is_double. simpl valid_binary.
    unfold bounded, canonical_mantissa. apply andb_true_iff. split.
    + apply Z.eqb_eq.
      rewrite pos_iter_nat, digits2_pos_shift, positive_nat_Z. fold d.
      unfold fexp, emin, double_prec, double_emax. lia.
    + apply Z.leb_le. unfold double_prec, double_emax. lia.
  - unfold fexp, emin, double_prec, double_emax. fold d. lia.
  - unfold double_prec, double_emax. lia.
Qed.

Lemma pos_shift_value (m : positive) (n : nat) :
  Z.pos (Nat.iter n xO m) = Z.pos m * 2 ^ Z.of_nat n.
Proof.
  induction n as [|n IH]; [simpl; lia|].
  simpl Nat.iter.
  change (Z.pos (Nat.iter n xO m)~0) with (2 * Z.pos (Nat.iter n xO m)).
  rewrite IH, Nat2Z.inj_succ.
  rewrite Z.pow_succ_r by lia. lia.
Qed.

(** Every [float] is exactly representable as a [lua_Number]: its
    conversion to [double] is the same number. *)
Lemma float_exactly_representable (x : spec_float) :
  is_float x = true -> exactly_representable TFloat x.
Proof.
  intros Hx. exists (float_to_double x).
  split; [now apply float_to_double_valid|].
  destruct x as [s|s| |s m e]; try reflexivity.
  unfold is_float in Hx. simpl valid_binary in Hx.
  unfold bounded, canonical_mantissa in Hx.
  apply andb_true_iff in Hx as [Hc He].
  apply Z.eqb_eq in Hc. apply Z.leb_le in He.
  unfold fexp, emin, float_prec, float_emax in Hc, He.
  pose proof (Pos2Z.is_pos (digits2_pos m)) as Hpos.
  set (d := Z.pos (digits2_pos m)) in *.
  destruct (53 - d) as [|p|p] eqn:Ep; try lia.
  unfold float_to_double, convert.
  rewrite (binary_round_widen double_prec double_emax s m e p).
  - simpl same_value. split; [reflexivity|].
    replace (Z.min e (e - Z.pos p)) with (e - Z.pos p) by lia.
    replace (e - (e - Z.pos p)) with (Z.pos p) by lia.
    rewrite Z.sub_diag, Z.pow_0_r, Z.mul_1_r.
    now rewrite pos_iter_nat, pos_shift_value, positive_nat_Z.
  - unfold fexp, emin, double_prec, double_emax. fold d. lia.
  - unfold double_prec, double_emax. lia.
Qed.

Lemma same_value_refl (x : spec_float) : same_value x x.
Proof. destruct x; simpl; auto. Qed.

Lemma double_exactly_representable (x : spec_float) :
  is_double x = true -> exactly_representable TDouble x.
Proof. intros Hx. exists x. split; [exact Hx|apply same_value_refl]. Qed.

(** ** Stack indices *)

Lemma index2pos_top (L : lua_State) (base rs : list lua_value) (i : nat) :
  stack L = base ++ rs -> (i < length rs)%nat ->
  index2pos L (- Z.of_nat (length rs) + Z.of_nat i)
  = Some (length base + i)%nat.
Proof.
  intros Hst Hi. unfold index2pos, lua_gettop.
  rewrite Hst, length_app.
  destruct (0 <? _) eqn:E1; [apply Z.ltb_lt in E1; lia|].
  destruct (_ <? 0) eqn:E2; [|apply Z.ltb_ge in E2; lia].
  destruct (_ <=? _) eqn:E3; [|apply Z.leb_gt in E3; lia].
  f_equal. lia.
Qed.

Lemma index2value_top (L : lua_State) (base rs : list lua_value) (i : nat) :
  stack L = base ++ rs -> (i < length rs)%nat ->
  index2value L (- Z.of_nat (length rs) + Z.of_nat i)
  = default LNil (rs !! i).
Proof.
  intros Hst Hi. unfold index2value.
  rewrite (index2pos_top L base rs i Hst Hi), Hst.
  rewrite lookup_app_r by lia. do 2 f_equal. lia.
Qed.

Lemma index2value_last (L : lua_State) (base : list lua_value)
  (v : lua_value) :
  stack L = base ++ [v] -> index2value L (-1) = v.
Proof.
  intros Hst. apply (index2value_top L base [v] 0 Hst). simpl. lia.
Qed.

Lemma index2pos_bound (L : lua_State) (index : Z) (i : nat) :
  index2pos L index = Some i -> (i < length (stack L))%nat.
Proof.
  unfold index2pos, lua_gettop. intros Hi.
  repeat match type of Hi with
  | context [if ?c then _ else _] => destruct c eqn:?
  end; try discriminate; injection Hi as <-;
  repeat match goal with
  | E : (_ <? _) = true |- _ => apply Z.ltb_lt in E
  | E : (_ <=? _) = true |- _ => apply Z.leb_le in E
  end; lia.
Qed.

(** Writing back the value of a slot changes nothing. *)
Lemma poke_same (L : lua_State) (index : Z) :
  poke L index (index2value L index) = stack L.
Proof.
  unfold poke, index2value.
  destruct (index2pos L index) as [i|] eqn:Ei; [|reflexivity].
  apply index2pos_bound in Ei.
  destruct (lookup_lt_is_Some_2 _ _ Ei) as [v Hv].
  rewrite Hv. simpl. now apply list_insert_id.
Qed.

(** ** One step of the header on a state *)

Section Steps.
Context {conv : LuaConversions}.

Lemma bind_run {A B} (c : run A) (k : A -> run B) (L L' : lua_State)
  (a : A) :
  c L = Done a L' -> bind c k L = k a L'.
Proof. unfold bind. now intros ->. Qed.

(** [push_argument] pushes the encoded value, and nothing else changes. *)
Lemma push_argument_run (a : argument) (L : lua_State) :
  push_argument (projT1 a) (projT2 a) L
  = Done tt
      (mk_lua_State (stack L ++ [encode a]) (globals L) (closures L)
         (calls L ++ [push_call a])).
Proof.
  destruct a as [[] v]; try reflexivity.
  simpl. unfold lua_pushboolean, modify, push_value, set_stack, record_call.
  simpl. now destruct v.
Qed.

Lemma push_all_run (args : list argument) (L : lua_State) :
  push_all args L
  = Done tt
      (mk_lua_State (stack L ++ map encode args) (globals L) (closures L)
         (calls L ++ map push_call args)).
Proof.
  revert L. induction args as [|a rest IH]; intros L.
  - simpl. unfold ret. rewrite !app_nil_r. now destruct L.
  - simpl push_all. rewrite (bind_run _ _ _ _ _ (push_argument_run a L)).
    rewrite IH. simpl. now rewrite <- !app_assoc.
Qed.

(** The variadic [push_argument] pushes its values first to last. *)
Lemma push_arguments_push_all (first : argument) (rest : list argument)
  (L : lua_State) :
  push_arguments first rest L = push_all (first :: rest) L.
Proof.
  revert first L. induction rest as [|second rest IH]; intros first L.
  - simpl. rewrite (bind_run _ _ _ _ _ (push_argument_run first L)).
    now rewrite push_argument_run.
  - simpl push_arguments. simpl push_all.
    rewrite !(bind_run _ _ _ _ _ (push_argument_run first L)).
    apply IH.
Qed.

(** [pop_argument] returns the decoded value of the slot, or is undefined
    when a string is built from a null pointer. *)
Lemma pop_argument_run (T : cpp_type) (index : Z) (L : lua_State) :
  pop_argument T index L
  = match decode T (index2value L index) with
    | Some x =>
        Done x
          (mk_lua_State
             (poke L index (after_read T (index2value L index)))
             (globals L) (closures L) (calls L ++ [read_call T index]))
    | None => Undefined
    end.
Proof.
  destruct T; simpl; unfold bind.
  - unfold lua_toboolean, ret, record_call. rewrite poke_same.
    destruct (index2value L index) as [|[]| | | | |]; reflexivity.
  - unfold lua_tointeger, ret, record_call.
    rewrite <- (poke_same L index) at 1.
    destruct (index2value L index); reflexivity.
  - unfold lua_tonumber, ret, record_call.
    rewrite <- (poke_same L index) at 1.
    destruct (index2value L index); reflexivity.
  - unfold lua_tonumber, ret, record_call.
    rewrite <- (poke_same L index) at 1.
    destruct (index2value L index); reflexivity.
  - unfold lua_tostring, std_string, ret, record_call, set_stack, poke.
    pose proof (poke_same L index) as Hp. unfold poke in Hp.
    destruct (index2value L index) eqn:Ev; simpl; try reflexivity.
    + destruct (index2pos L index); reflexivity.
    + destruct (index2pos L index); reflexivity.
    + now rewrite Hp.
Qed.

Lemma get_global_function_run (name : string) (L : lua_State) :
  get_global_function name L
  = if lua_isfunction_value (global_value L name)
    then Done tt (resolved name L) else Aborted (resolved name L).
Proof.
  unfold get_global_function, lua_getglobal, lua_isfunction, bind, modify,
    assert, c_str.
  rewrite (index2value_last _ (stack L) (global_value L name))
    by reflexivity.
  unfold resolved, record_call, push_value, set_stack. simpl.
  rewrite <- !app_assoc. reflexivity.
Qed.

Lemma length_adjust_results (n : nat) (rs : list lua_value) :
  length (adjust_results (Z.of_nat n) rs) = n.
Proof.
  unfold adjust_results, LUA_MULTRET.
  destruct (Z.of_nat n =? -1) eqn:E; [apply Z.eqb_eq in E; lia|].
  rewrite Nat2Z.id, length_take, length_app, length_replicate. lia.
Qed.

(** [lua_pcall] on a stack that ends in a function and its arguments. *)
Lemma lua_pcall_run (nresults : Z) (L : lua_State)
  (base args : list lua_value) (f : nat) :
  stack L = base ++ LFunction f :: args ->
  lua_pcall (Z.of_nat (length args)) nresults 0 L
  = match closures L f (globals L) args with
    | (Returns rs, g) =>
        Done 0
          (mk_lua_State (base ++ adjust_results nresults rs) g (closures L)
             (calls L ++ [PCall (Z.of_nat (length args)) nresults 0]))
    | (Raises err, g) =>
        Done LUA_ERRRUN
          (mk_lua_State (base ++ [err]) g (closures L)
             (calls L ++ [PCall (Z.of_nat (length args)) nresults 0]))
    end.
Proof.
  intros Hst. unfold lua_pcall, lua_gettop. rewrite Hst.
  rewrite length_app, length_cons, Nat2Z.id.
  destruct (Z.of_nat (length args) <? 0) eqn:E1;
    [apply Z.ltb_lt in E1; lia|].
  destruct (Z.of_nat (length base + S (length args)) <? _) eqn:E2;
    [apply Z.ltb_lt in E2; lia|].
  simpl orb. cbv iota.
  replace (length base + S (length args) - length args - 1)%nat
    with (length base) by lia.
  replace (length base + S (length args) - length args)%nat
    with (S (length base)) by lia.
  rewrite take_app_length.
  rewrite (lookup_app_r base) by lia.
  rewrite Nat.sub_diag. simpl lookup. simpl default.
  replace (drop (S (length base)) (base ++ LFunction f :: args)) with args.
  2:{ rewrite drop_app_ge by lia.
      now replace (S (length base) - length base)%nat with 1%nat by lia. }
  destruct (closures L f (globals L) args) as [[rs|err] g]; reflexivity.
Qed.

(** [lua_pop] of the [n] slots on top. *)
Lemma lua_pop_run (L : lua_State) (base top : list lua_value) :
  stack L = base ++ top ->
  lua_pop (Z.of_nat (length top)) L
  = Done tt
      (mk_lua_State base (globals L) (closures L)
         (calls L ++ [Pop (Z.of_nat (length top))])).
Proof.
  intros Hst. unfold lua_pop, lua_gettop. rewrite Hst.
  rewrite length_app, Nat2Z.id.
  destruct (Z.of_nat (length top) <? 0) eqn:E1;
    [apply Z.ltb_lt in E1; lia|].
  destruct (Z.of_nat (length base + length top) <? _) eqn:E2;
    [apply Z.ltb_lt in E2; lia|].
  simpl orb. cbv iota.
  replace (length base + length top - length top)%nat
    with (length base) by lia.
  now rewrite take_app_length.
Qed.

Lemma pop_argument_top (T : cpp_type) (L : lua_State)
  (base vs : list lua_value) (v : lua_value) :
  stack L = base ++ v :: vs ->
  pop_argument T (- Z.of_nat (length (v :: vs))) L
  = match decode T v with
    | Some x =>
        Done x
          (mk_lua_State (base ++ after_read T v :: vs) (globals L)
             (closures L)
             (calls L ++ [read_call T (- Z.of_nat (length (v :: vs)))]))
    | None => Undefined
    end.
Proof.
  intros Hst. rewrite pop_argument_run.
  assert (Hi : (0 < length (v :: vs))%nat) by (simpl; lia).
  pose proof (index2value_top L base (v :: vs) 0 Hst Hi) as Hv.
  pose proof (index2pos_top L base (v :: vs) 0 Hst Hi) as Hp.
  rewrite Z.add_0_r in Hv, Hp. rewrite Hv. simpl default.
  destruct (decode T v); [|reflexivity].
  unfold poke. rewrite Hp, Hst, insert_app_r. reflexivity.
Qed.

Lemma decode_all_cons (T : cpp_type) (Ts : list cpp_type) (v : lua_value)
  (vs : list lua_value) :
  decode_all (T :: Ts) (v :: vs)
  = match decode T v with
    | Some x =>
        match decode_all Ts vs with
        | Some t => Some (x, t)
        | None => None
        end
    | None => None
    end.
Proof.
  simpl. destruct (decode T v); [|reflexivity].
  simpl. now destruct (decode_all Ts vs).
Qed.

(** [pop_arguments] decodes the slots on top, the deepest first. *)
Lemma pop_arguments_run (RetN : list cpp_type) :
  forall (Ret1 : cpp_type) (L : lua_State) (base vs : list lua_value),
  stack L = base ++ vs -> length vs = S (length RetN) ->
  pop_arguments Ret1 RetN (- Z.of_nat (length vs)) L
  = match decode_all (Ret1 :: RetN) vs with
    | Some t =>
        Done t
          (mk_lua_State (base ++ zip_with after_read (Ret1 :: RetN) vs)
             (globals L) (closures L)
             (calls L ++
              read_calls (Ret1 :: RetN) (- Z.of_nat (length vs))))
    | None => Undefined
    end.
Proof.
  induction RetN as [|Ret2 RetN' IH]; intros Ret1 L base vs Hst Hlen.
  - destruct vs as [|v [|? ?]]; try discriminate.
    simpl pop_arguments. unfold bind.
    rewrite (pop_argument_top _ _ _ _ _ Hst), decode_all_cons.
    destruct (decode Ret1 v); reflexivity.
  - destruct vs as [|v vs]; [discriminate|].
    rewrite decode_all_cons.
    change (pop_arguments Ret1 (Ret2 :: RetN') ?i)
      with (x <- pop_argument Ret1 i ;;
            tail <- pop_arguments Ret2 RetN' (i + 1) ;;
            ret (tuple_cat (make_tuple x) tail)).
    unfold bind at 1.
    rewrite (pop_argument_top _ _ _ _ _ Hst).
    destruct (decode Ret1 v) as [x|]; [|reflexivity].
    unfold bind.
    replace (- Z.of_nat (length (v :: vs)) + 1)
      with (- Z.of_nat (length vs)) by (simpl length; lia).
    rewrite (IH Ret2 _ (base ++ [after_read Ret1 v]) vs);
      [|simpl; now rewrite <- app_assoc|simpl in Hlen; lia].
    destruct (decode_all (Ret2 :: RetN') vs) as [t|]; [|reflexivity].
    unfold ret. simpl stack. simpl globals. simpl closures. simpl calls.
    rewrite <- !app_assoc.
    replace (- Z.of_nat (length vs))
      with (- Z.of_nat (length (v :: vs)) + 1) by (simpl length; lia).
    reflexivity.
Qed.

Lemma adjust_results_1 (rs : list lua_value) :
  adjust_results 1 rs = [default LNil (rs !! 0%nat)].
Proof. destruct rs; reflexivity. Qed.

Lemma num_results_multi (Ret1 Ret2 : cpp_type) (RetN : list cpp_type) :
  num_results (Sig_Ret1_RetN Ret1 Ret2 RetN)
  = Z.of_nat (length (Ret1 :: Ret2 :: RetN)).
Proof. simpl. lia. Qed.

(** [call_lua_func] of every specialisation, on a stack that ends in a
    function and its arguments. *)
Lemma call_lua_func_run (sig : signature) (L : lua_State)
  (base args : list lua_value) (f : nat) :
  stack L = base ++ LFunction f :: args ->
  call_lua_func sig (Z.of_nat (length args)) L
  = match closures L f (globals L) args with
    | (Returns rs, g) =>
        match decode_results sig (adjust_results (num_results sig) rs) with
        | Some r =>
            Done r
              (mk_lua_State base g (closures L)
                 (calls L ++
                  PCall (Z.of_nat (length args)) (num_results sig) 0
                  :: result_calls sig))
        | None => Undefined
        end
    | (Raises err, g) =>
        Aborted
          (mk_lua_State (base ++ [err]) g (closures L)
             (calls L ++
              [PCall (Z.of_nat (length args)) (num_results sig) 0]))
    end.
Proof.
  intros Hst. destruct sig as [|Ret|Ret1 Ret2 RetN].
  - simpl call_lua_func. unfold lua_function_void.call_lua_func, bind.
    rewrite (lua_pcall_run _ _ _ _ _ Hst).
    destruct (closures L f (globals L) args) as [[rs|err] g]; simpl.
    + unfold adjust_results. simpl. now rewrite app_nil_r.
    + reflexivity.
  - simpl call_lua_func. unfold lua_function_Ret.call_lua_func.
    unfold bind at 1. rewrite (lua_pcall_run _ _ _ _ _ Hst).
    destruct (closures L f (globals L) args) as [[rs|err] g];
      [|reflexivity].
    simpl num_results. rewrite adjust_results_1.
    set (v := default LNil (rs !! 0%nat)).
    unfold bind at 1. simpl assert. cbv iota beta.
    unfold bind at 1.
    change (-1) with (- Z.of_nat (length [v])).
    erewrite pop_argument_top by reflexivity.
    simpl decode_results. simpl lookup. simpl default.
    destruct (decode Ret v) as [x|]; [|reflexivity].
    unfold bind.
    change 1 with (Z.of_nat (length [after_read Ret v])) at 1.
    erewrite lua_pop_run by reflexivity.
    simpl. unfold ret. rewrite <- !app_assoc. reflexivity.
  - simpl call_lua_func.
    unfold lua_function_Ret1_RetN.call_lua_func.
    rewrite num_results_multi.
    replace (Z.of_nat (length (Ret2 :: RetN)) + 1)
      with (Z.of_nat (length (Ret1 :: Ret2 :: RetN)))
      by (simpl length; lia).
    set (Ts := Ret1 :: Ret2 :: RetN).
    unfold bind at 1. rewrite (lua_pcall_run _ _ _ _ _ Hst).
    destruct (closures L f (globals L) args) as [[rs|err] g];
      [|reflexivity].
    set (vs := adjust_results (Z.of_nat (length Ts)) rs).
    assert (Hvs : length vs = length Ts) by apply length_adjust_results.
    cbv beta iota. unfold bind at 1, assert at 1.
    change (0 =? 0) with true. cbv beta iota.
    unfold bind at 1.
    replace (pop_arguments Ret1 (Ret2 :: RetN) (- Z.of_nat (length Ts)))
      with (pop_arguments Ret1 (Ret2 :: RetN) (- Z.of_nat (length vs)))
      by now rewrite Hvs.
    erewrite pop_arguments_run; [|reflexivity|exact Hvs].
    change (decode_results (Sig_Ret1_RetN Ret1 Ret2 RetN) vs)
      with (decode_all Ts vs).
    fold Ts.
    destruct (decode_all Ts vs) as [t|]; [|reflexivity].
    unfold bind.
    assert (Hz : length (zip_with after_read Ts vs) = length Ts).
    { rewrite length_zip_with. lia. }
    rewrite <- Hz at 1.
    erewrite lua_pop_run by reflexivity.
    unfold ret, result_calls. rewrite num_results_multi. fold Ts.
    cbn [stack globals closures calls]. rewrite Hz, Hvs.
    rewrite <- !app_assoc. reflexivity.
Qed.

(** Every overload is the one operation [bound_call]. *)
Lemma call_bound_call (sig : signature) (name : string)
  (args : list argument) (L : lua_State) :
  call sig name args L = bound_call sig name args L.
Proof.
  unfold bound_call.
  destruct args as [|a [|b rest]].
  - destruct sig; unfold call, call0, call_lua_func,
      lua_function_void.call0, lua_function_Ret.call0,
      lua_function_Ret1_RetN.call0, bind;
      destruct (get_global_function name L); reflexivity.
  - destruct sig; unfold call, call1, call_lua_func,
      lua_function_void.call1, lua_function_Ret.call1,
      lua_function_Ret1_RetN.call1, bind;
      (destruct (get_global_function name L) as [[] L1| |];
       [|reflexivity|reflexivity]);
      rewrite push_argument_run, push_all_run; reflexivity.
  - assert (Hk : Z.of_nat (length (b :: rest)) + 1
                 = Z.of_nat (length (a :: b :: rest)))
      by (simpl length; lia).
    destruct sig; unfold call, callN, call_lua_func,
      lua_function_void.callN, lua_function_Ret.callN,
      lua_function_Ret1_RetN.callN, bind; rewrite Hk;
      (destruct (get_global_function name L) as [[] L1| |];
       [|reflexivity|reflexivity]);
      rewrite push_argument_run, push_arguments_push_all, !push_all_run;
      cbn [stack globals closures calls map];
      rewrite <- !app_assoc; reflexivity.
Qed.

(** What a call does, from the global bound to the name and from what the
    callee does on the encoded arguments. *)
Lemma bound_call_run (sig : signature) (name : string)
  (args : list argument) (L : lua_State) :
  bound_call sig name args L
  = match global_value L name with
    | LFunction f =>
        match closures L f (globals L) (map encode args) with
        | (Returns rs, g) =>
            match
              decode_results sig (adjust_results (num_results sig) rs)
            with
            | Some r => Done r (returned sig name args g L)
            | None => Undefined
            end
        | (Raises err, g) =>
            Aborted (called name args (num_results sig) [err] g L)
        end
    | _ => Aborted (resolved name L)
    end.
Proof.
  unfold bound_call, bind. rewrite get_global_function_run.
  destruct (global_value L name) as [| | | | |f|] eqn:Eg;
    try reflexivity.
  simpl lua_isfunction_value. cbv iota.
  rewrite push_all_run.
  rewrite <- (length_map encode args).
  erewrite call_lua_func_run
    by (unfold resolved; simpl; rewrite Eg, <- app_assoc; reflexivity).
  unfold resolved. cbn [stack globals closures calls].
  rewrite (length_map encode args).
  destruct (closures L f (globals L) (map encode args)) as [[rs|err] g].
  - destruct (decode_results sig _); [|reflexivity].
    unfold returned. rewrite <- !app_assoc. reflexivity.
  - unfold called. rewrite <- !app_assoc. reflexivity.
Qed.

Lemma call_run (sig : signature) (name : string) (args : list argument)
  (L : lua_State) :
  call sig name args L
  = match global_value L name with
    | LFunction f =>
        match closures L f (globals L) (map encode args) with
        | (Returns rs, g) =>
            match
              decode_results sig (adjust_results (num_results sig) rs)
            with
            | Some r => Done r (returned sig name args g L)
            | None => Undefined
            end
        | (Raises err, g) =>
            Aborted (called name args (num_results sig) [err] g L)
        end
    | _ => Aborted (resolved name L)
    end.
Proof. rewrite call_bound_call. apply bound_call_run. Qed.

(** ** Results and tuples *)

Lemma adjust_results_lookup (n i : nat) (rs : list lua_value) :
  (i < n)%nat ->
  default LNil (adjust_results (Z.of_nat n) rs !! i)
  = default LNil (rs !! i).
Proof.
  intros Hi. unfold adjust_results, LUA_MULTRET.
  destruct (Z.of_nat n =? -1) eqn:E; [apply Z.eqb_eq in E; lia|].
  rewrite Nat2Z.id, lookup_take_lt by exact Hi.
  destruct (decide (i < length rs)%nat) as [Hlt|Hge].
  - now rewrite lookup_app_l.
  - rewrite lookup_app_r by lia.
    rewrite lookup_replicate_2 by lia.
    now rewrite lookup_ge_None_2 by lia.
Qed.

Lemma adjust_results_exact (rs : list lua_value) :
  adjust_results (Z.of_nat (length rs)) rs = rs.
Proof.
  unfold adjust_results, LUA_MULTRET.
  destruct (Z.of_nat (length rs) =? -1) eqn:E; [reflexivity|].
  now rewrite Nat2Z.id, take_app_length.
Qed.

(** The i-th element of a decoded tuple is the i-th slot decoded as the
    i-th type. *)
Lemma decode_all_elements (Ts : list cpp_type) :
  forall (vs : list lua_value) (t : tuple Ts) (i : nat) (T : cpp_type),
  decode_all Ts vs = Some t -> Ts !! i = Some T ->
  exists x : host T,
    decode T (default LNil (vs !! i)) = Some x /\
    tuple_elements t !! i = Some (arg T x).
Proof.
  induction Ts as [|T0 Ts IH]; intros vs t i T Hd Hi; [discriminate|].
  destruct vs as [|v vs]; [discriminate|].
  rewrite decode_all_cons in Hd.
  destruct (decode T0 v) as [x0|] eqn:E0; [|discriminate].
  destruct (decode_all Ts vs) as [t0|] eqn:E1; [|discriminate].
  injection Hd as <-.
  destruct i as [|i].
  - injection Hi as <-. exists x0. now split.
  - simpl in Hi. destruct (IH vs t0 i T E1 Hi) as (x & Hx & Ht).
    exists x. now split.
Qed.

Lemma decode_encode (a : argument) :
  faithful a -> decode (projT1 a) (encode a) = Some (projT2 a).
Proof.
  destruct a as [[] v]; intros [Hw Hs]; simpl in *.
  - now destruct v.
  - now rewrite to_int_id.
  - now rewrite float_round_trip.
  - reflexivity.
  - now rewrite c_string_idemp, c_string_nul_free.
Qed.

Lemma decode_all_encode (args : list argument) :
  Forall faithful args ->
  exists t : tuple (map projT1 args),
    decode_all (map projT1 args) (map encode args) = Some t /\
    tuple_elements t = args.
Proof.
  induction 1 as [|a args Ha _ (t & Ht & He)].
  - now exists tt.
  - exists (projT2 a, t). split.
    + change (map projT1 (a :: args)) with (projT1 a :: map projT1 args).
      change (map encode (a :: args)) with (encode a :: map encode args).
      now rewrite decode_all_cons, decode_encode, Ht.
    + simpl. rewrite He. now destruct a.
Qed.

Lemma lookup_map_encode (args : list argument) (i : nat) (a : argument) :
  args !! i = Some a -> map encode args !! i = Some (encode a).
Proof.
  revert i. induction args as [|a0 args IH]; intros [|i] Hi;
    try discriminate.
  - now injection Hi as ->.
  - now apply IH.
Qed.

(** ** Steps that cannot abort *)

Lemma pop_argument_not_aborted (T : cpp_type) (index : Z)
  (L L' : lua_State) :
  pop_argument T index L <> Aborted L'.
Proof.
  rewrite pop_argument_run.
  now destruct (decode T (index2value L index)).
Qed.

Lemma pop_arguments_not_aborted (RetN : list cpp_type) :
  forall (Ret1 : cpp_type) (index : Z) (L L' : lua_State),
  pop_arguments Ret1 RetN index L <> Aborted L'.
Proof.
  induction RetN as [|Ret2 RetN IH]; intros Ret1 index L L';
    simpl; unfold bind;
    destruct (pop_argument Ret1 index L) as [x L1|L1|] eqn:E;
    try discriminate;
    try (now apply pop_argument_not_aborted in E).
  pose proof (IH Ret2 (index + 1) L1 L') as Hn.
  destruct (pop_arguments Ret2 RetN (index + 1) L1); try discriminate.
  intros [= <-]. now apply Hn.
Qed.

Lemma lua_pop_not_aborted (n : Z) (L L' : lua_State) :
  lua_pop n L <> Aborted L'.
Proof. unfold lua_pop. now destruct (_ || _). Qed.

End Steps.

(** ** The scenarios of section 8 *)

Example scenario_add :
  exists L' : lua_State,
    call (conv := Demo.conversions) (Sig_Ret TInt) "add"
      [arg TInt 2; arg TInt 3] Demo.demo_state = Done 5 L' /\
    calls L'
    = [GetGlobal "add"; IsFunction (-1); PushInteger 2; PushInteger 3;
       PCall 2 1 0; ToInteger (-1); Pop 1].
Proof. eexists. split; reflexivity. Qed.

Example scenario_divmod :
  exists L' : lua_State,
    call (conv := Demo.conversions) (Sig_Ret1_RetN TInt TInt []) "divmod"
      [arg TInt 7; arg TInt 2] Demo.demo_state = Done (3, (1, tt)) L' /\
    calls L'
    = [GetGlobal "divmod"; IsFunction (-1); PushInteger 7; PushInteger 2;
       PCall 2 2 0; ToInteger (-2); ToInteger (-1); Pop 2].
Proof. eexists. split; reflexivity. Qed.

Example scenario_noop :
  exists L' : lua_State,
    call (conv := Demo.conversions) Sig_void "noop" [] Demo.demo_state
    = Done tt L' /\
    stack L' = stack Demo.demo_state.
Proof. eexists. split; reflexivity. Qed.

Example scenario_bad :
  exists L' : lua_State,
    call (conv := Demo.conversions) Sig_void "bad" [] Demo.demo_state
    = Aborted L' /\
    stack L' = stack Demo.demo_state ++ [LInteger 7].
Proof. eexists. split; reflexivity. Qed.

Example to_int_wraps : to_int (2 ^ 32 + 7) = 7 /\ to_int (2 ^ 31) = INT_MIN.
Proof. split; reflexivity. Qed.

(** 1.0f is 1.0 as a [double], and back. *)
Example float_one :
  float_to_double (S754_finite false 8388608 (-23))
  = S754_finite false 4503599627370496 (-52) /\
  double_to_float (S754_finite false 4503599627370496 (-52))
  = S754_finite false 8388608 (-23).
Proof. split; reflexivity. Qed.

(** 0.1 as a [double] is not a [float]: narrowing rounds it. *)
Example double_tenth_rounds :
  is_double (S754_finite false 7205759403792794 (-56)) = true /\
  double_to_float (S754_finite false 7205759403792794 (-56))
  = S754_finite false 13421773 (-27).
Proof. split; reflexivity. Qed.

(** * The claims *)

(** C7: when the bound name does not resolve to a function,
    [get_global_function] stops in its assertion, and so does every call;
    when it resolves to a function the assertion passes and the function
    is left on the top of the stack, above the slots that were there. *)
Theorem get_global_function_asserts_callable {conv : LuaConversions}
  (name : string) (L : lua_State) :
  (lua_isfunction_value (global_value L name) = false ->
   get_global_function name L = Aborted (resolved name L) /\
   forall (sig : signature) (args : list argument),
     call sig name args L = Aborted (resolved name L)) /\
  (forall f : nat, global_value L name = LFunction f ->
   get_global_function name L = Done tt (resolved name L) /\
   stack (resolved name L) = stack L ++ [LFunction f] /\
   index2value (resolved name L) (-1) = LFunction f).
Proof.
  split.
  - intros Hn. split.
    + now rewrite get_global_function_run, Hn.
    + intros sig args. rewrite call_run.
      now destruct (global_value L name).
  - intros f Hf. rewrite get_global_function_run, Hf. split; [reflexivity|].
    unfold resolved. simpl stack. rewrite Hf. split; [reflexivity|].
    now apply (index2value_last _ (stack L)).
Qed.

Lemma get_global_function_asserts_callable_witness :
  (get_global_function "bad" Demo.demo_state
   = Aborted (resolved "bad" Demo.demo_state) /\
   call (conv := Demo.conversions) (Sig_Ret TInt) "bad" [arg TInt 2]
     Demo.demo_state
   = Aborted (resolved "bad" Demo.demo_state)) /\
  get_global_function "add" Demo.demo_state
  = Done tt (resolved "add" Demo.demo_state) /\
  stack (resolved "add" Demo.demo_state)
  = stack Demo.demo_state ++ [LFunction 0] /\
  index2value (resolved "add" Demo.demo_state) (-1) = LFunction 0.
Proof.
  split.
  - destruct
      (proj1 (get_global_function_asserts_callable (conv := Demo.conversions)
                "bad" Demo.demo_state))
      as [Ha Hc]; [vm_compute; reflexivity|].
    split; [exact Ha|apply Hc].
  - apply
      (proj2 (get_global_function_asserts_callable (conv := Demo.conversions)
                "add" Demo.demo_state)).
    vm_compute. reflexivity.
Defined.

(** C8: in each of the three specialisations, [call_lua_func] stops in its
    assertion when [lua_pcall] returns a status other than 0, and no value
    is returned; when the status is 0 the call does not stop in an
    assertion. *)
Theorem call_lua_func_asserts_status {conv : LuaConversions} (sig : signature)
  (num_args status : Z) (L L1 : lua_State) :
  lua_pcall num_args (num_results sig) 0 L = Done status L1 ->
  (status <> 0 -> call_lua_func sig num_args L = Aborted L1) /\
  (status = 0 ->
   forall L2 : lua_State, call_lua_func sig num_args L <> Aborted L2).
Proof.
  intros Hp.
  destruct sig as [|Ret|Ret1 Ret2 RetN];
    unfold call_lua_func, lua_function_void.call_lua_func,
      lua_function_Ret.call_lua_func,
      lua_function_Ret1_RetN.call_lua_func, num_results in *.
  - unfold bind. rewrite Hp. unfold assert. split.
    + intros Hs. apply Z.eqb_neq in Hs. now rewrite Hs.
    + intros -> L2. discriminate.
  - unfold bind. rewrite Hp. unfold assert. split.
    + intros Hs. apply Z.eqb_neq in Hs. now rewrite Hs.
    + intros -> L2. change (0 =? 0) with true. cbv beta iota.
      pose proof (pop_argument_not_aborted Ret (-1) L1) as Ha.
      destruct (pop_argument Ret (-1) L1) as [x L3|L3|];
        [|now destruct (Ha L3)|discriminate].
      pose proof (lua_pop_not_aborted 1 L3 L2) as Hq.
      unfold ret. destruct (lua_pop 1 L3); 
        [discriminate|intros [= ->]; now apply Hq|discriminate].
  - replace (Z.of_nat (length (Ret2 :: RetN)) + 1)
      with (Z.of_nat (length RetN) + 2) by (simpl length; lia).
    unfold bind. rewrite Hp. unfold assert. split.
    + intros Hs. apply Z.eqb_neq in Hs. now rewrite Hs.
    + intros -> L2. change (0 =? 0) with true. cbv beta iota.
      pose proof
        (pop_arguments_not_aborted (Ret2 :: RetN) Ret1
           (- (Z.of_nat (length RetN) + 2)) L1) as Ha.
      destruct (pop_arguments Ret1 (Ret2 :: RetN) _ L1) as [x L3|L3|];
        [|now destruct (Ha L3)|discriminate].
      pose proof
        (lua_pop_not_aborted (Z.of_nat (length RetN) + 2) L3 L2) as Hq.
      unfold ret. destruct (lua_pop _ L3); 
        [discriminate|intros [= ->]; now apply Hq|discriminate].
Qed.

Lemma call_lua_func_asserts_status_witness :
  let Lf := pushed "fail" [] Demo.demo_state in
  let Lf1 :=
    called "fail" [] 1 [LString "boom"] Demo.demo_globals Demo.demo_state in
  let La := pushed "add" [arg TInt 2; arg TInt 3] Demo.demo_state in
  let La1 :=
    called "add" [arg TInt 2; arg TInt 3] 1 [LInteger 5] Demo.demo_globals
      Demo.demo_state in
  (lua_pcall 0 1 0 Lf = Done 2 Lf1 /\
   call_lua_func (conv := Demo.conversions) (Sig_Ret TInt) 0 Lf
   = Aborted Lf1) /\
  (lua_pcall 2 1 0 La = Done 0 La1 /\
   forall L2 : lua_State,
     call_lua_func (conv := Demo.conversions) (Sig_Ret TInt) 2 La
     <> Aborted L2).
Proof.
  intros Lf Lf1 La La1. split; (split; [reflexivity|]).
  - apply
      (proj1
         (call_lua_func_asserts_status (conv := Demo.conversions)
            (Sig_Ret TInt) 0 2 Lf Lf1 eq_refl)).
    discriminate.
  - apply
      (proj2
         (call_lua_func_asserts_status (conv := Demo.conversions)
            (Sig_Ret TInt) 2 0 La La1 eq_refl)).
    reflexivity.
Defined.

(** C10: decoding a slot that holds an integer [z] as an [int] never
    fails and leaves the stack as it is; the result is [z] converted to
    [int]: it is [z] itself when [z] is in the range of [int], and in every
    case the value in that range that is congruent to [z] modulo 2^32. *)
Theorem pop_argument_int_narrows {conv : LuaConversions} (index z : Z)
  (L : lua_State) :
  index2value L index = LInteger z ->
  exists L1 : lua_State,
    pop_argument TInt index L = Done (to_int z) L1 /\
    stack L1 = stack L /\
    (int_range z -> to_int z = z) /\
    int_range (to_int z) /\
    to_int z mod 2 ^ 32 = z mod 2 ^ 32.
Proof.
  intros Hv. rewrite pop_argument_run, Hv. simpl decode. simpl after_read.
  eexists. split; [reflexivity|]. simpl stack.
  rewrite <- Hv, poke_same.
  split; [reflexivity|]. split; [apply to_int_id|].
  split; [apply to_int_range|apply to_int_congruent].
Qed.

Lemma pop_argument_int_narrows_witness :
  let z := 2 ^ 32 + 7 in
  let L := push_value (LInteger z) Demo.demo_state in
  index2value L (-1) = LInteger z /\
  exists L1 : lua_State,
    pop_argument (conv := Demo.conversions) TInt (-1) L
    = Done (to_int z) L1 /\
    stack L1 = stack L /\
    (int_range z -> to_int z = z) /\
    int_range (to_int z) /\
    to_int z mod 2 ^ 32 = z mod 2 ^ 32.
Proof.
  intros z L. split; [reflexivity|].
  apply (pop_argument_int_narrows (conv := Demo.conversions)).
  reflexivity.
Defined.

(** C9, the part that holds: a slot that is absent or nil decodes as
    [false], as 0 and as the float zero without failing.  Decoding it as a
    [std::string] builds the string from the null pointer that
    [lua_tostring] returns, which is undefined behaviour and not the empty
    string. *)
Theorem pop_argument_absent_slot {conv : LuaConversions} (index : Z)
  (L : lua_State) :
  index2value L index = LNil ->
  let L1 (T : cpp_type) :=
    mk_lua_State (stack L) (globals L) (closures L)
      (calls L ++ [read_call T index]) in
  pop_argument TBool index L = Done false (L1 TBool) /\
  pop_argument TInt index L = Done 0 (L1 TInt) /\
  pop_argument TFloat index L = Done (S754_zero false) (L1 TFloat) /\
  pop_argument TDouble index L = Done (S754_zero false) (L1 TDouble) /\
  pop_argument TString index L = Undefined.
Proof.
  intros Hv L1. rewrite !pop_argument_run, Hv. simpl.
  rewrite <- Hv, poke_same. repeat split; reflexivity.
Qed.

Lemma pop_argument_absent_slot_witness :
  let L := push_value LNil Demo.demo_state in
  index2value L (-1) = LNil /\
  pop_argument (conv := Demo.conversions) TString (-1) L = Undefined /\
  call (conv := Demo.conversions) (Sig_Ret TString) "noop" []
    Demo.demo_state = Undefined.
Proof.
  intros L. split; [reflexivity|]. split; [|reflexivity].
  apply
    (pop_argument_absent_slot (conv := Demo.conversions) (-1) L eq_refl).
Defined.

(** C3: for every signature (no result, one result, several results) and
    every list of arguments, a call that returns leaves the stack as it
    was before the call, so at the same depth. *)
Theorem call_leaves_stack_balanced {conv : LuaConversions}
  (sig : signature) (name : string) (args : list argument)
  (L L' : lua_State) (r : result_type sig) :
  call sig name args L = Done r L' ->
  length (stack L') = length (stack L) /\ stack L' = stack L.
Proof.
  rewrite call_run.
  destruct (global_value L name); try discriminate.
  destruct (closures L f (globals L) (map encode args)) as [[rs|err] g];
    [|discriminate].
  destruct (decode_results sig _); [|discriminate].
  now intros [= _ <-].
Qed.

Lemma call_leaves_stack_balanced_witness :
  let args := [arg TInt 7; arg TInt 2] in
  let sig := Sig_Ret1_RetN TInt TInt [] in
  let L := Demo.demo_state in
  let L' := returned sig "divmod" args Demo.demo_globals L in
  call (conv := Demo.conversions) sig "divmod" args L = Done (3, (1, tt)) L' /\
  length (stack L') = length (stack L) /\ stack L' = stack L.
Proof.
  intros args sig L L'. split; [reflexivity|].
  apply
    (call_leaves_stack_balanced (conv := Demo.conversions) sig "divmod"
       args L L' (3, (1, tt))).
  reflexivity.
Defined.

(** C6: the overloads of the call operator for no argument, one argument
    and several arguments, in each specialisation, are one operation on
    the sequence [args] of their arguments, with K the length of [args].
    Each is [bound_call] on [args].  Each resolves the name first and
    stops in the assertion, with nothing pushed after the global, when it
    is not a function.  When it is a function, each reaches the call step
    in the state where the function and then the encoded arguments, first
    to last, are on top of the stack and the API calls made are the
    lookup, the test and the pushes in that order; the call step is
    [lua_pcall] with K arguments and the declared number of results on
    that state, the callee receives exactly the encoded arguments, and
    what the overload does is what [call_lua_func] does from there. *)
Theorem call_operator_overloads_agree {conv : LuaConversions}
  (sig : signature) (name : string) (args : list argument) (L : lua_State)
  (o : outcome (result_type sig)) :
  (args = [] /\ o = call0 sig name L) \/
  (exists a : argument, args = [a] /\ o = call1 sig name a L) \/
  (exists (first second : argument) (rest : list argument),
     args = first :: second :: rest /\
     o = callN sig name first second rest L) ->
  let K := Z.of_nat (length args) in
  let N := num_results sig in
  o = bound_call sig name args L /\
  (lua_isfunction_value (global_value L name) = false ->
   o = Aborted (resolved name L) /\
   stack (resolved name L) = stack L ++ [global_value L name] /\
   calls (resolved name L)
   = calls L ++ [GetGlobal (c_string name); IsFunction (-1)]) /\
  (forall f : nat,
     global_value L name = LFunction f ->
     stack (pushed name args L)
     = stack L ++ LFunction f :: map encode args /\
     calls (pushed name args L)
     = calls L ++ [GetGlobal (c_string name); IsFunction (-1)] ++
       map push_call args /\
     o = call_lua_func sig K (pushed name args L) /\
     (forall (rs : list lua_value) (g : gmap string lua_value),
        closures L f (globals L) (map encode args) = (Returns rs, g) ->
        lua_pcall K N 0 (pushed name args L)
        = Done 0 (called name args N (adjust_results N rs) g L) /\
        calls (called name args N (adjust_results N rs) g L)
        = calls (pushed name args L) ++ [PCall K N 0] /\
        o = match decode_results sig (adjust_results N rs) with
            | Some r => Done r (returned sig name args g L)
            | None => Undefined
            end /\
        calls (returned sig name args g L)
        = calls (pushed name args L) ++ [PCall K N 0] ++ result_calls sig) /\
     (forall (err : lua_value) (g : gmap string lua_value),
        closures L f (globals L) (map encode args) = (Raises err, g) ->
        lua_pcall K N 0 (pushed name args L)
        = Done LUA_ERRRUN (called name args N [err] g L) /\
        calls (called name args N [err] g L)
        = calls (pushed name args L) ++ [PCall K N 0] /\
        o = Aborted (called name args N [err] g L))).
Proof.
  intros Hform K N.
  assert (Ho : o = call sig name args L).
  { destruct Hform as [[-> ->]|[(a & -> & ->)|(a & b & rest & -> & ->)]];
      reflexivity. }
  clear Hform. subst o.
  split; [apply call_bound_call|]. split.
  - intros Hn. rewrite call_run.
    split; [now destruct (global_value L name)|]. split; reflexivity.
  - intros f Hg.
    assert (Hst : stack (pushed name args L)
                  = stack L ++ LFunction f :: map encode args).
    { unfold pushed. simpl stack. now rewrite Hg. }
    assert (Hk : K = Z.of_nat (length (map encode args)))
      by (unfold K; now rewrite length_map).
    split; [exact Hst|]. split; [reflexivity|]. split.
    + rewrite call_run, Hg, Hk.
      rewrite (call_lua_func_run sig _ _ _ _ Hst).
      unfold pushed. cbn [stack globals closures calls].
      destruct (closures L f (globals L) (map encode args))
        as [[rs|err] g].
      * destruct (decode_results sig _); [|reflexivity].
        unfold returned. rewrite <- Hk. unfold K.
        rewrite <- !app_assoc. reflexivity.
      * unfold called. rewrite <- Hk. unfold K.
        rewrite <- !app_assoc. reflexivity.
    + split.
      * intros rs g Hf. split; [|split; [|split]].
        -- rewrite Hk, (lua_pcall_run N _ _ _ _ Hst).
           unfold pushed. cbn [stack globals closures calls].
           rewrite Hf. unfold called. rewrite <- Hk. unfold K.
           rewrite <- !app_assoc. reflexivity.
        -- unfold called, pushed. cbn [calls].
           rewrite <- !app_assoc. reflexivity.
        -- rewrite call_run, Hg, Hf. reflexivity.
        -- unfold returned, pushed. cbn [calls].
           rewrite <- !app_assoc. reflexivity.
      * intros err g Hf. split; [|split].
        -- rewrite Hk, (lua_pcall_run N _ _ _ _ Hst).
           unfold pushed. cbn [stack globals closures calls].
           rewrite Hf. unfold called. rewrite <- Hk. unfold K.
           rewrite <- !app_assoc. reflexivity.
        -- unfold called, pushed. cbn [calls].
           rewrite <- !app_assoc. reflexivity.
        -- rewrite call_run, Hg, Hf. reflexivity.
Qed.

Lemma call_operator_overloads_agree_witness :
  let L := Demo.demo_state in
  let a := arg TInt 7 in
  let b := arg TInt 2 in
  let sig := Sig_Ret1_RetN TInt TInt [] in
  let o := callN (conv := Demo.conversions) sig "divmod" a b [] L in
  o = bound_call (conv := Demo.conversions) sig "divmod" [a; b] L /\
  stack (pushed "divmod" [a; b] L)
  = stack L ++ [LFunction 1; LInteger 7; LInteger 2] /\
  calls (pushed "divmod" [a; b] L)
  = calls L ++
    [GetGlobal "divmod"; IsFunction (-1); PushInteger 7; PushInteger 2] /\
  o = call_lua_func (conv := Demo.conversions) sig 2
        (pushed "divmod" [a; b] L) /\
  lua_pcall 2 2 0 (pushed "divmod" [a; b] L)
  = Done 0
      (called "divmod" [a; b] 2 [LInteger 3; LInteger 1] (globals L) L) /\
  o = Done (3, (1, tt)) (returned sig "divmod" [a; b] (globals L) L).
Proof.
  intros L a b sig o.
  destruct
    (call_operator_overloads_agree (conv := Demo.conversions) sig "divmod"
       [a; b] L o)
    as (Hb & _ & Hf).
  { right. right. exists a, b, []. split; reflexivity. }
  destruct (Hf 1%nat eq_refl) as (Hs & Hc & Ho & Hr & _).
  destruct (Hr [LInteger 3; LInteger 1] (globals L) eq_refl)
    as (Hp & _ & Hd & _).
  split; [exact Hb|]. split; [exact Hs|]. split; [exact Hc|].
  split; [exact Ho|]. split; [exact Hp|exact Hd].
Defined.

(** C1: a call with the declared results (Ret1, Ret2, RetN...), N of them,
    that returns has asked [lua_pcall] for exactly N results, which are on
    top of the stack after the call; it has decoded them with
    [pop_arguments] from index -N, so that element i of the tuple is the
    i-th result slot (the i-th value the callee returned, nil if it
    returned fewer) decoded as the i-th declared type; and it has popped N
    slots, which leaves the stack as it was before the call. *)
Theorem multi_result_call {conv : LuaConversions} (Ret1 Ret2 : cpp_type)
  (RetN : list cpp_type) (name : string) (args : list argument)
  (L L' : lua_State) (t : tuple (Ret1 :: Ret2 :: RetN)) :
  call (Sig_Ret1_RetN Ret1 Ret2 RetN) name args L = Done t L' ->
  let N := num_results (Sig_Ret1_RetN Ret1 Ret2 RetN) in
  exists (f : nat) (rs : list lua_value) (g : gmap string lua_value),
    global_value L name = LFunction f /\
    closures L f (globals L) (map encode args) = (Returns rs, g) /\
    let Lc := called name args N (adjust_results N rs) g L in
    lua_pcall (Z.of_nat (length args)) N 0 (pushed name args L)
    = Done 0 Lc /\
    Z.of_nat (length (adjust_results N rs)) = N /\
    (exists Ld : lua_State,
       pop_arguments Ret1 (Ret2 :: RetN) (- N) Lc = Done t Ld /\
       lua_pop N Ld = Done tt L') /\
    (forall (i : nat) (T : cpp_type),
       (Ret1 :: Ret2 :: RetN) !! i = Some T ->
       exists (x : host T) (Li : lua_State),
         index2value Lc (- N + Z.of_nat i) = default LNil (rs !! i) /\
         pop_argument T (- N + Z.of_nat i) Lc = Done x Li /\
         tuple_elements t !! i = Some (arg T x)) /\
    stack L' = stack L /\
    calls L'
    = calls L ++ [GetGlobal (c_string name); IsFunction (-1)] ++
      map push_call args ++ [PCall (Z.of_nat (length args)) N 0] ++
      read_calls (Ret1 :: Ret2 :: RetN) (- N) ++ [Pop N].
Proof.
  intros Hc N. rewrite call_run in Hc.
  destruct (global_value L name) as [| | | | |f|] eqn:Eg; try discriminate.
  destruct (closures L f (globals L) (map encode args)) as [[rs|err] g]
    eqn:Ef; [|discriminate].
  fold N in Hc.
  destruct (decode_results _ (adjust_results N rs)) as [t'|] eqn:Ed;
    [|discriminate].
  injection Hc as -> <-.
  exists f, rs, g. split; [reflexivity|]. split; [exact Ef|].
  set (Ts := Ret1 :: Ret2 :: RetN) in *.
  assert (HN : N = Z.of_nat (length Ts)) by apply num_results_multi.
  set (vs := adjust_results N rs) in *.
  assert (Hvs : length vs = length Ts).
  { unfold vs. rewrite HN. apply length_adjust_results. }
  intros Lc.
  assert (Hst : stack Lc = stack L ++ vs) by reflexivity.
  split; [|split; [|split; [|split; [|split]]]].
  - rewrite <- (length_map encode args).
    erewrite lua_pcall_run
      by (unfold pushed; simpl stack; rewrite Eg; reflexivity).
    unfold pushed. cbn [closures globals calls]. rewrite Ef.
    unfold Lc, called. rewrite (length_map encode args).
    rewrite <- !app_assoc. reflexivity.
  - rewrite Hvs. now rewrite HN.
  - replace (- N) with (- Z.of_nat (length vs)) by (rewrite Hvs; lia).
    rewrite (pop_arguments_run _ _ _ _ _ Hst) by exact Hvs.
    change (decode_all (Ret1 :: Ret2 :: RetN) vs) with (decode_all Ts vs).
    change (decode_results (Sig_Ret1_RetN Ret1 Ret2 RetN) vs)
      with (decode_all Ts vs) in Ed.
    rewrite Ed. eexists. split; [reflexivity|].
    assert (Hz : length (zip_with after_read Ts vs) = length Ts).
    { rewrite length_zip_with. lia. }
    replace N with (Z.of_nat (length (zip_with after_read Ts vs)))
      by (rewrite Hz; lia).
    erewrite lua_pop_run by reflexivity.
    unfold returned, Lc, called, result_calls.
    cbn [stack globals closures calls].
    rewrite Hz, Hvs, <- HN. fold N. rewrite <- !app_assoc. reflexivity.
  - intros i T Hi.
    assert (Hlt : (i < length vs)%nat).
    { rewrite Hvs. apply lookup_lt_is_Some_1. now exists T. }
    destruct (decode_all_elements Ts vs t i T Ed Hi) as (x & Hx & Ht).
    assert (Hv : index2value Lc (- N + Z.of_nat i) = default LNil (vs !! i)).
    { replace (- N) with (- Z.of_nat (length vs)) by (rewrite Hvs; lia).
      now apply (index2value_top Lc (stack L)). }
    exists x. eexists. split; [|split; [|exact Ht]].
    + rewrite Hv. unfold vs. rewrite HN.
      apply adjust_results_lookup. lia.
    + rewrite pop_argument_run, Hv, Hx. reflexivity.
  - reflexivity.
  - reflexivity.
Qed.

Lemma multi_result_call_witness :
  let args := [arg TInt 7; arg TInt 2] in
  let sig := Sig_Ret1_RetN TInt TInt [] in
  let L := Demo.demo_state in
  let L' := returned sig "divmod" args Demo.demo_globals L in
  call (conv := Demo.conversions) sig "divmod" args L = Done (3, (1, tt)) L' /\
  exists (f : nat) (rs : list lua_value) (g : gmap string lua_value),
    global_value L "divmod" = LFunction f /\
    closures L f (globals L) (map encode args) = (Returns rs, g) /\
    let Lc := called "divmod" args 2 (adjust_results 2 rs) g L in
    lua_pcall 2 2 0 (pushed "divmod" args L) = Done 0 Lc /\
    Z.of_nat (length (adjust_results 2 rs)) = 2 /\
    (exists Ld : lua_State,
       pop_arguments (conv := Demo.conversions) TInt [TInt] (-2) Lc
       = Done (3, (1, tt)) Ld /\
       lua_pop 2 Ld = Done tt L') /\
    (forall (i : nat) (T : cpp_type),
       [TInt; TInt] !! i = Some T ->
       exists (x : host T) (Li : lua_State),
         index2value Lc (-2 + Z.of_nat i) = default LNil (rs !! i) /\
         pop_argument (conv := Demo.conversions) T (-2 + Z.of_nat i) Lc
         = Done x Li /\
         tuple_elements (Ts := [TInt; TInt]) (3, (1, tt)) !! i
         = Some (arg T x)) /\
    stack L' = stack L /\
    calls L'
    = calls L ++ [GetGlobal "divmod"; IsFunction (-1)] ++
      map push_call args ++ [PCall 2 2 0] ++
      read_calls [TInt; TInt] (-2) ++ [Pop 2].
Proof.
  intros args sig L L'. split; [reflexivity|].
  apply
    (multi_result_call (conv := Demo.conversions) TInt TInt [] "divmod"
       args L).
  reflexivity.
Defined.

(** C5: every call of [lua_function<Ret>] runs the same sequence:
    resolve the name, push the K arguments, [lua_pcall] with K arguments
    and 1 result, the assertion on its status, [pop_argument<Ret>] at
    index -1, [lua_pop] of 1 slot, return.  When the call returns, the
    callee was on the stack below its encoded arguments, the one slot that
    [lua_pcall] left on top (the first value the callee returned, nil if
    it returned none) was decoded into the returned value, and that one
    slot was popped, which leaves the stack as before the call. *)
Theorem single_result_call {conv : LuaConversions} (Ret : cpp_type)
  (name : string) (args : list argument) (L : lua_State) :
  call (Sig_Ret Ret) name args L
  = (get_global_function name ;;
     push_all args ;;
     call_ret <- lua_pcall (Z.of_nat (length args)) 1 0 ;;
     assert (call_ret =? 0) ;;
     x <- pop_argument Ret (-1) ;;
     lua_pop 1 ;;
     ret x) L /\
  forall (r : host Ret) (L' : lua_State),
    call (Sig_Ret Ret) name args L = Done r L' ->
    exists (f : nat) (rs : list lua_value) (g : gmap string lua_value),
      global_value L name = LFunction f /\
      closures L f (globals L) (map encode args) = (Returns rs, g) /\
      stack (pushed name args L)
      = stack L ++ LFunction f :: map encode args /\
      let Lc := called name args 1 [default LNil (rs !! 0%nat)] g L in
      lua_pcall (Z.of_nat (length args)) 1 0 (pushed name args L)
      = Done 0 Lc /\
      index2value Lc (-1) = default LNil (rs !! 0%nat) /\
      (exists Ld : lua_State,
         pop_argument Ret (-1) Lc = Done r Ld /\
         lua_pop 1 Ld = Done tt L') /\
      stack L' = stack L /\
      calls L'
      = calls L ++ [GetGlobal (c_string name); IsFunction (-1)] ++
        map push_call args ++ [PCall (Z.of_nat (length args)) 1 0] ++
        [read_call Ret (-1); Pop 1].
Proof.
  split; [apply (call_bound_call (Sig_Ret Ret))|].
  intros r L' Hc. rewrite call_run in Hc.
  destruct (global_value L name) as [| | | | |f|] eqn:Eg; try discriminate.
  destruct (closures L f (globals L) (map encode args)) as [[rs|err] g]
    eqn:Ef; [|discriminate].
  simpl num_results in Hc. rewrite adjust_results_1 in Hc.
  simpl decode_results in Hc.
  set (v := default LNil (rs !! 0%nat)) in *.
  destruct (decode Ret v) as [x|] eqn:Ed; [|discriminate].
  injection Hc as -> <-.
  exists f, rs, g. split; [reflexivity|]. split; [exact Ef|].
  split; [unfold pushed; simpl stack; now rewrite Eg|].
  intros Lc.
  assert (Hv : index2value Lc (-1) = v)
    by now apply (index2value_last Lc (stack L)).
  split; [|split; [exact Hv|split; [|split; reflexivity]]].
  - rewrite <- (length_map encode args).
    erewrite lua_pcall_run
      by (unfold pushed; simpl stack; rewrite Eg; reflexivity).
    unfold pushed. cbn [closures globals calls]. rewrite Ef.
    rewrite adjust_results_1. fold v.
    unfold Lc, called. rewrite (length_map encode args).
    rewrite <- !app_assoc. reflexivity.
  - change (-1) with (- Z.of_nat (length [v])).
    erewrite pop_argument_top by reflexivity.
    rewrite Ed. eexists. split; [reflexivity|].
    change 1 with (Z.of_nat (length [after_read Ret v])).
    erewrite lua_pop_run by reflexivity.
    unfold returned, Lc, called, result_calls.
    cbn [stack globals closures calls length num_results].
    rewrite <- !app_assoc. reflexivity.
Qed.

Lemma single_result_call_witness :
  let args := [arg TInt 2; arg TInt 3] in
  let L := Demo.demo_state in
  let L' := returned (Sig_Ret TInt) "add" args Demo.demo_globals L in
  call (conv := Demo.conversions) (Sig_Ret TInt) "add" args L = Done 5 L' /\
  exists (f : nat) (rs : list lua_value) (g : gmap string lua_value),
    global_value L "add" = LFunction f /\
    closures L f (globals L) (map encode args) = (Returns rs, g) /\
    stack (pushed "add" args L)
    = stack L ++ LFunction f :: map encode args /\
    let Lc := called "add" args 1 [default LNil (rs !! 0%nat)] g L in
    lua_pcall 2 1 0 (pushed "add" args L) = Done 0 Lc /\
    index2value Lc (-1) = default LNil (rs !! 0%nat) /\
    (exists Ld : lua_State,
       pop_argument (conv := Demo.conversions) TInt (-1) Lc = Done 5 Ld /\
       lua_pop 1 Ld = Done tt L') /\
    stack L' = stack L /\
    calls L'
    = calls L ++ [GetGlobal "add"; IsFunction (-1)] ++
      map push_call args ++ [PCall 2 1 0] ++ [ToInteger (-1); Pop 1].
Proof.
  intros args L L'. split; [reflexivity|].
  apply
    (proj2
       (single_result_call (conv := Demo.conversions) TInt "add" args L)).
  reflexivity.
Defined.

(** C2 as the claim states it fails: a function that returns its arguments,
    called with a string that holds a NUL character, returns the string
    cut at the NUL ([push_argument<std::string>] passes [arg.c_str()] to
    [lua_pushstring]). *)
Lemma echo_cuts_string_at_nul :
  exists L' : lua_State,
    call (conv := Demo.conversions) (Sig_Ret1_RetN TString TBool [TInt])
      "echo" [arg TString Demo.with_nul; arg TBool true; arg TInt 5]
      Demo.demo_state
    = Done ("a"%string, (true, (5, tt))) L' /\
    "a"%string <> Demo.with_nul.
Proof.
  eexists. split; [reflexivity|discriminate].
Qed.

(** C2, amended: [push_argument(L, first, args...)] pushes the encoded
    arguments first to last, the first one deepest; and a bound function
    that returns the arguments it received, called with two or more
    arguments that are values of their types, with no NUL character in a
    string, returns a tuple of exactly these arguments, in their order. *)
Theorem arguments_pushed_in_order {conv : LuaConversions} :
  (forall (first : argument) (rest : list argument) (L : lua_State),
     exists L1 : lua_State,
       push_arguments first rest L = Done tt L1 /\
       stack L1 = stack L ++ map encode (first :: rest) /\
       calls L1 = calls L ++ map push_call (first :: rest) /\
       forall (i : nat) (a : argument),
         (first :: rest) !! i = Some a ->
         stack L1 !! (length (stack L) + i)%nat = Some (encode a)) /\
  (forall (a b : argument) (rest : list argument) (name : string)
     (L : lua_State) (f : nat),
     global_value L name = LFunction f ->
     (forall g vs, closures L f g vs = (Returns vs, g)) ->
     Forall faithful (a :: b :: rest) ->
     exists t : tuple (projT1 a :: projT1 b :: map projT1 rest),
       call (Sig_Ret1_RetN (projT1 a) (projT1 b) (map projT1 rest)) name
         (a :: b :: rest) L
       = Done t
           (returned (Sig_Ret1_RetN (projT1 a) (projT1 b) (map projT1 rest))
              name (a :: b :: rest) (globals L) L) /\
       tuple_elements t = a :: b :: rest).
Proof.
  split.
  - intros first rest L. rewrite push_arguments_push_all, push_all_run.
    eexists. split; [reflexivity|]. simpl stack. simpl calls.
    split; [reflexivity|]. split; [reflexivity|].
    intros i a Hi. rewrite lookup_app_r by lia.
    replace (length (stack L) + i - length (stack L))%nat with i by lia.
    now apply (lookup_map_encode (first :: rest)).
  - intros a b rest name L f Hg Hecho Hf.
    destruct (decode_all_encode (a :: b :: rest) Hf) as (t & Ht & He).
    exists t. split; [|exact He].
    rewrite call_run, Hg, Hecho, num_results_multi.
    replace (length (projT1 a :: projT1 b :: map projT1 rest))
      with (length (map encode (a :: b :: rest)))
      by (simpl; now rewrite !length_map).
    rewrite adjust_results_exact.
    change (decode_results _ ?vs)
      with (decode_all (map projT1 (a :: b :: rest)) vs).
    now rewrite Ht.
Qed.

Lemma arguments_pushed_in_order_witness :
  exists t : tuple [TInt; TBool; TString],
    call (conv := Demo.conversions) (Sig_Ret1_RetN TInt TBool [TString])
      "echo" [arg TInt 5; arg TBool true; arg TString "abc"]
      Demo.demo_state
    = Done t
        (returned (Sig_Ret1_RetN TInt TBool [TString]) "echo"
           [arg TInt 5; arg TBool true; arg TString "abc"]
           Demo.demo_globals Demo.demo_state) /\
    tuple_elements t = [arg TInt 5; arg TBool true; arg TString "abc"].
Proof.
  apply
    (proj2 (arguments_pushed_in_order (conv := Demo.conversions))
       (arg TInt 5) (arg TBool true) [arg TString "abc"] "echo"
       Demo.demo_state 3%nat).
  - reflexivity.
  - reflexivity.
  - repeat constructor; vm_compute; intros; discriminate.
Defined.

(** C4 as the claim states it fails: a [std::string] that holds a NUL
    character does not survive encoding and decoding; only the characters
    before the NUL come back. *)
Lemma string_with_nul_round_trip :
  exists L1 L2 : lua_State,
    push_argument TString Demo.with_nul Demo.demo_state = Done tt L1 /\
    pop_argument (conv := Demo.conversions) TString (-1) L1
    = Done "a"%string L2 /\
    "a"%string <> Demo.with_nul.
Proof.
  do 2 eexists. split; [reflexivity|]. split; [reflexivity|discriminate].
Qed.

(** C4, amended: decoding the slot that encoding a value [v] pushed
    leaves the stack as it is and gives [v] back exactly for every [bool]
    and every [int], and for every [float] and [double] that is exactly
    representable in the native numeric representation of the runtime; a
    [std::string] comes back as its characters before the first NUL:
    exactly when it has no NUL character, cut at its first NUL when it
    has one. *)
Theorem encode_decode_round_trip {conv : LuaConversions} :
  (forall (T : cpp_type) (v : host T) (L : lua_State),
     is_string_type T = false ->
     well_formed T v ->
     exactly_representable T v ->
     exists L1 L2 : lua_State,
       push_argument T v L = Done tt L1 /\
       stack L1 = stack L ++ [encode (arg T v)] /\
       pop_argument T (-1) L1 = Done v L2 /\
       stack L2 = stack L1) /\
  (forall (s : string) (L : lua_State),
     exists L1 L2 : lua_State,
       push_argument TString s L = Done tt L1 /\
       stack L1 = stack L ++ [LString (c_string s)] /\
       pop_argument TString (-1) L1 = Done (c_string s) L2 /\
       stack L2 = stack L1 /\
       (nul_free s = true -> c_string s = s) /\
       (nul_free s = false -> c_string s <> s)).
Proof.
  split.
  - intros T v L HT Hw _.
    change (push_argument T v L)
      with (push_argument (projT1 (arg T v)) (projT2 (arg T v)) L).
    rewrite (push_argument_run (arg T v) L).
    eexists. eexists. split; [reflexivity|]. split; [reflexivity|].
    change (-1) with (- Z.of_nat (length [encode (arg T v)])).
    erewrite pop_argument_top by reflexivity.
    assert (Hf : faithful (arg T v)).
    { split; [exact Hw|]. now destruct T. }
    rewrite (decode_encode (arg T v) Hf). simpl projT2.
    split; [reflexivity|]. simpl stack. destruct T; reflexivity.
  - intros s L.
    change (push_argument TString s L)
      with (push_argument (projT1 (arg TString s))
              (projT2 (arg TString s)) L).
    rewrite (push_argument_run (arg TString s) L).
    eexists. eexists. split; [reflexivity|]. split; [reflexivity|].
    change (-1) with (- Z.of_nat (length [encode (arg TString s)])).
    erewrite pop_argument_top by reflexivity.
    simpl decode. rewrite c_string_idemp.
    split; [reflexivity|]. split; [reflexivity|].
    split; [apply c_string_nul_free|].
    intros Hn He. rewrite <- He, c_string_is_nul_free in Hn. discriminate.
Qed.

Lemma encode_decode_round_trip_witness :
  let v : host TFloat := S754_finite false 12582912 (-23) in
  let L := Demo.demo_state in
  (is_string_type TFloat = false /\
   well_formed TFloat v /\ exactly_representable TFloat v) /\
  (exists L1 L2 : lua_State,
     push_argument TFloat v L = Done tt L1 /\
     stack L1 = stack L ++ [encode (arg TFloat v)] /\
     pop_argument (conv := Demo.conversions) TFloat (-1) L1 = Done v L2 /\
     stack L2 = stack L1) /\
  nul_free Demo.with_nul = false /\
  exists L1 L2 : lua_State,
    push_argument TString Demo.with_nul L = Done tt L1 /\
    stack L1 = stack L ++ [LString (c_string Demo.with_nul)] /\
    pop_argument (conv := Demo.conversions) TString (-1) L1
    = Done (c_string Demo.with_nul) L2 /\
    stack L2 = stack L1 /\
    (nul_free Demo.with_nul = true -> c_string Demo.with_nul = Demo.with_nul) /\
    (nul_free Demo.with_nul = false ->
     c_string Demo.with_nul <> Demo.with_nul).
Proof.
  intros v L.
  assert (Hw : well_formed TFloat v) by reflexivity.
  assert (Hr : exactly_representable TFloat v).
  { exists (S754_finite false 6755399441055744 (-52)).
    split; [reflexivity|]. split; reflexivity. }
  split; [split; [reflexivity|split; [exact Hw|exact Hr]]|].
  split.
  - apply
      (proj1 (encode_decode_round_trip (conv := Demo.conversions)) TFloat v
         L eq_refl Hw Hr).
  - split; [reflexivity|].
    apply
      (proj2 (encode_decode_round_trip (conv := Demo.conversions))
         Demo.with_nul L).
Defined.

(** * Further properties of the header *)

(** ** Reading a slot *)

(** X1: [pop_argument] removes nothing.  A read that returns leaves the
    depth of the stack, the globals and the callees as they are and makes
    one API call; no slot other than the one read changes, and for every
    type but [std::string] the stack does not change at all.  A read as
    [std::string] of a slot that holds a number leaves the string of that
    number in the slot, and returns that string up to its first NUL; a
    slot that holds a string is left as it is. *)
Theorem pop_argument_reads_in_place {conv : LuaConversions} (T : cpp_type)
  (index : Z) (L L' : lua_State) (x : host T) :
  pop_argument T index L = Done x L' ->
  length (stack L') = length (stack L) /\
  globals L' = globals L /\
  closures L' = closures L /\
  calls L' = calls L ++ [read_call T index] /\
  (forall j : nat,
     index2pos L index <> Some j -> stack L' !! j = stack L !! j) /\
  (T <> TString -> stack L' = stack L) /\
  (forall j : nat,
     index2pos L index = Some j ->
     stack L' !! j
     = Some
         match T, index2value L index with
         | TString, LInteger z => LString (lua_integer2str z)
         | TString, LNumber n => LString (lua_number2str n)
         | _, v => v
         end) /\
  (forall z : Z,
     index2value L index = LInteger z ->
     exists L1 : lua_State,
       pop_argument TString index L
       = Done (c_string (lua_integer2str z)) L1) /\
  (forall n : spec_float,
     index2value L index = LNumber n ->
     exists L1 : lua_State,
       pop_argument TString index L
       = Done (c_string (lua_number2str n)) L1).
Proof.
  rewrite pop_argument_run.
  destruct (decode T (index2value L index)) as [y|] eqn:Ed; [|discriminate].
  intros [= -> <-]. cbn [stack globals closures calls].
  split; [|split; [reflexivity|split; [reflexivity|split; [reflexivity|]]]].
  - unfold poke. destruct (index2pos L index); [|reflexivity].
    apply length_insert.
  - split; [|split; [|split; [|split]]].
    + intros j Hj. unfold poke.
      destruct (index2pos L index) as [i|]; [|reflexivity].
      apply list_lookup_insert_ne. congruence.
    + intros HT.
      replace (after_read T (index2value L index))
        with (index2value L index) by now destruct T.
      apply poke_same.
    + intros j Hj. unfold poke. rewrite Hj.
      rewrite list_lookup_insert_eq
        by (now apply (index2pos_bound L index)).
      f_equal. destruct T; destruct (index2value L index); reflexivity.
    + intros z Hz. rewrite pop_argument_run, Hz. eexists. reflexivity.
    + intros n Hn. rewrite pop_argument_run, Hn. eexists. reflexivity.
Qed.

Lemma pop_argument_reads_in_place_witness :
  let L := push_value (LInteger 42) Demo.demo_state in
  let L' :=
    mk_lua_State (stack Demo.demo_state ++ [LString "42"]) (globals L)
      (closures L) [ToString (-1)] in
  pop_argument (conv := DecimalDemo.conversions) TString (-1) L
  = Done "42"%string L' /\
  length (stack L') = length (stack L) /\
  index2pos L (-1) = Some 2%nat /\
  stack L !! 2%nat = Some (LInteger 42) /\
  stack L' !! 2%nat = Some (LString "42") /\
  stack L' !! 1%nat = stack L !! 1%nat.
Proof.
  intros L L'.
  destruct
    (pop_argument_reads_in_place (conv := DecimalDemo.conversions) TString
       (-1) L L' "42"%string eq_refl)
    as (Hlen & _ & _ & _ & Hother & _ & Hslot & _).
  split; [reflexivity|]. split; [exact Hlen|]. split; [reflexivity|].
  split; [reflexivity|]. split.
  - exact (Hslot 2%nat eq_refl).
  - apply Hother. discriminate.
Defined.

(** X2: [pop_argument<std::string>] has undefined behaviour exactly when
    the slot holds neither a string nor a number (nil, a boolean, a
    function, a table, or no slot at all): [lua_tostring] then returns a
    null pointer, from which the [std::string] is built. *)
Theorem pop_argument_string_defined {conv : LuaConversions} (index : Z)
  (L : lua_State) :
  pop_argument TString index L = Undefined <->
  lua_isstring_value (index2value L index) = false.
Proof.
  rewrite pop_argument_run.
  destruct (index2value L index); simpl; split; intros Hx;
    try reflexivity; discriminate.
Qed.

(** X3: a string result is the Lua string up to its first NUL: the value
    returned by [pop_argument<std::string>] for a string slot never
    contains a NUL character, and the read leaves the stack as it is. *)
Theorem pop_argument_string_cut {conv : LuaConversions} (index : Z)
  (L : lua_State) (s : string) :
  index2value L index = LString s ->
  exists L' : lua_State,
    pop_argument TString index L = Done (c_string s) L' /\
    nul_free (c_string s) = true /\
    stack L' = stack L.
Proof.
  intros Hv. rewrite pop_argument_run, Hv. simpl decode.
  eexists. split; [reflexivity|]. split; [apply c_string_is_nul_free|].
  simpl stack. simpl after_read. rewrite <- Hv. apply poke_same.
Qed.

Lemma pop_argument_string_cut_witness :
  let L := push_value (LString Demo.with_nul) Demo.demo_state in
  index2value L (-1) = LString Demo.with_nul /\
  exists L' : lua_State,
    pop_argument (conv := Demo.conversions) TString (-1) L
    = Done (c_string Demo.with_nul) L' /\
    nul_free (c_string Demo.with_nul) = true /\
    stack L' = stack L.
Proof.
  intros L. split; [reflexivity|].
  apply (pop_argument_string_cut (conv := Demo.conversions) (-1) L).
  reflexivity.
Defined.

(** ** Calls *)

Lemma decode_total {conv : LuaConversions} (T : cpp_type) (v : lua_value) :
  is_string_type T = false -> exists x : host T, decode T v = Some x.
Proof. destruct T; try discriminate; intros _; eexists; reflexivity. Qed.

Lemma decode_all_total {conv : LuaConversions} (Ts : list cpp_type) :
  forall vs : list lua_value,
  forallb (fun T => negb (is_string_type T)) Ts = true ->
  length vs = length Ts ->
  exists t : tuple Ts, decode_all Ts vs = Some t.
Proof.
  induction Ts as [|T Ts IH]; intros vs Hs Hl.
  - now exists tt.
  - destruct vs as [|v vs]; [discriminate|].
    simpl in Hs. apply andb_true_iff in Hs as [HT Hs].
    apply negb_true_iff in HT.
    destruct (decode_total T v HT) as [x Hx].
    destruct (IH vs Hs) as [t Ht]; [simpl in Hl; lia|].
    exists (x, t). now rewrite decode_all_cons, Hx, Ht.
Qed.

Lemma decode_results_total {conv : LuaConversions} (sig : signature)
  (rs : list lua_value) :
  forallb (fun T => negb (is_string_type T)) (declared_types sig) = true ->
  exists r : result_type sig,
    decode_results sig (adjust_results (num_results sig) rs) = Some r.
Proof.
  intros Hs. destruct sig as [|Ret|Ret1 Ret2 RetN].
  - now exists tt.
  - simpl in Hs. rewrite andb_true_r in Hs. apply negb_true_iff in Hs.
    apply decode_total, Hs.
  - apply (decode_all_total (Ret1 :: Ret2 :: RetN)); [exact Hs|].
    rewrite num_results_multi. apply length_adjust_results.
Qed.

(** X4: when no declared result type is [std::string] (this includes
    [void]), a call of a name that is bound to a function returns whenever
    the callee returns, whatever values and however many the callee
    returned. *)
Theorem call_returns_when_callee_returns {conv : LuaConversions}
  (sig : signature) (name : string) (args : list argument) (L : lua_State)
  (f : nat) (rs : list lua_value) (g : gmap string lua_value) :
  forallb (fun T => negb (is_string_type T)) (declared_types sig) = true ->
  global_value L name = LFunction f ->
  closures L f (globals L) (map encode args) = (Returns rs, g) ->
  exists r : result_type sig,
    call sig name args L = Done r (returned sig name args g L).
Proof.
  intros Hs Hg Hf. rewrite call_run, Hg, Hf.
  destruct (decode_results_total sig rs Hs) as [r Hr].
  exists r. now rewrite Hr.
Qed.

Lemma call_returns_when_callee_returns_witness :
  let sig := Sig_Ret1_RetN TInt TBool [TDouble] in
  let L := Demo.demo_state in
  (forallb (fun T => negb (is_string_type T)) (declared_types sig) = true /\
   global_value L "noop" = LFunction 2 /\
   closures L 2%nat (globals L) (map encode []) = (Returns [], globals L)) /\
  exists r : result_type sig,
    call (conv := Demo.conversions) sig "noop" [] L
    = Done r (returned sig "noop" [] (globals L) L).
Proof.
  intros sig L. split; [repeat split|].
  apply
    (call_returns_when_callee_returns (conv := Demo.conversions) sig "noop"
       [] L 2%nat []); reflexivity.
Defined.

(** X5: when the callee raises an error, a call of any signature stops in
    the assertion of [call_lua_func] with the error object left on top of
    the slots that were on the stack before the call; nothing is read or
    popped after [lua_pcall]. *)
Theorem call_aborts_when_callee_raises {conv : LuaConversions}
  (sig : signature) (name : string) (args : list argument) (L : lua_State)
  (f : nat) (err : lua_value) (g : gmap string lua_value) :
  global_value L name = LFunction f ->
  closures L f (globals L) (map encode args) = (Raises err, g) ->
  exists L' : lua_State,
    call sig name args L = Aborted L' /\
    stack L' = stack L ++ [err] /\
    globals L' = g /\
    calls L'
    = calls L ++ [GetGlobal (c_string name); IsFunction (-1)] ++
      map push_call args ++
      [PCall (Z.of_nat (length args)) (num_results sig) 0].
Proof.
  intros Hg Hf. rewrite call_run, Hg, Hf.
  eexists. split; [reflexivity|]. repeat split.
Qed.

Lemma call_aborts_when_callee_raises_witness :
  let L := Demo.demo_state in
  (global_value L "divmod" = LFunction 1 /\
   closures L 1%nat (globals L) (map encode [arg TInt 7; arg TInt 0])
   = (Raises (LString "attempt to perform 'n//0'"), globals L)) /\
  exists L' : lua_State,
    call (conv := Demo.conversions) (Sig_Ret1_RetN TInt TInt []) "divmod"
      [arg TInt 7; arg TInt 0] L = Aborted L' /\
    stack L' = stack L ++ [LString "attempt to perform 'n//0'"] /\
    globals L' = globals L /\
    calls L'
    = calls L ++ [GetGlobal "divmod"; IsFunction (-1)] ++
      map push_call [arg TInt 7; arg TInt 0] ++ [PCall 2 2 0].
Proof.
  intros L. split; [split; reflexivity|].
  apply
    (call_aborts_when_callee_raises (conv := Demo.conversions)
       (Sig_Ret1_RetN TInt TInt []) "divmod" [arg TInt 7; arg TInt 0] L
       1%nat); reflexivity.
Defined.

(** X6: a call of [lua_function<void>] asks [lua_pcall] for 0 results and
    makes no API call after it: whatever the callee returns is dropped,
    the call returns with the stack as before the call and with the
    globals as the callee left them. *)
Theorem void_call_drops_results {conv : LuaConversions} (name : string)
  (args : list argument) (L : lua_State) (f : nat) (rs : list lua_value)
  (g : gmap string lua_value) :
  global_value L name = LFunction f ->
  closures L f (globals L) (map encode args) = (Returns rs, g) ->
  exists L' : lua_State,
    call Sig_void name args L = Done tt L' /\
    stack L' = stack L /\
    globals L' = g /\
    calls L'
    = calls L ++ [GetGlobal (c_string name); IsFunction (-1)] ++
      map push_call args ++ [PCall (Z.of_nat (length args)) 0 0].
Proof.
  intros Hg Hf. rewrite call_run, Hg, Hf. simpl decode_results.
  eexists. split; [reflexivity|]. unfold returned, result_calls.
  cbn [stack globals calls num_results]. rewrite app_nil_r.
  repeat split.
Qed.

Lemma void_call_drops_results_witness :
  let L := Demo.demo_state in
  let args := [arg TInt 1; arg TString "x"] in
  (global_value L "echo" = LFunction 3 /\
   closures L 3%nat (globals L) (map encode args)
   = (Returns [LInteger 1; LString "x"], globals L)) /\
  exists L' : lua_State,
    call (conv := Demo.conversions) Sig_void "echo" args L = Done tt L' /\
    stack L' = stack L /\
    globals L' = globals L /\
    calls L'
    = calls L ++ [GetGlobal "echo"; IsFunction (-1)] ++
      map push_call args ++ [PCall 2 0 0].
Proof.
  intros L args. split; [split; reflexivity|].
  apply
    (void_call_drops_results (conv := Demo.conversions) "echo" args L 3%nat
       [LInteger 1; LString "x"]); reflexivity.
Defined.

(** X7: what a call does depends on the globals and the callees only, not
    on the slots that are on the stack nor on the calls made before: on
    two states with the same globals and callees it returns the same
    value, stops in the same assertion or is undefined alike, and in each
    state it leaves the slots that were there (below the one value an
    aborted call leaves behind). *)
Theorem call_independent_of_stack {conv : LuaConversions} (sig : signature)
  (name : string) (args : list argument) (L1 L2 : lua_State) :
  globals L1 = globals L2 ->
  closures L1 = closures L2 ->
  match call sig name args L1, call sig name args L2 with
  | Done r1 L1', Done r2 L2' =>
      r1 = r2 /\ globals L1' = globals L2' /\
      stack L1' = stack L1 /\ stack L2' = stack L2
  | Aborted L1', Aborted L2' =>
      globals L1' = globals L2' /\
      exists v : lua_value,
        stack L1' = stack L1 ++ [v] /\ stack L2' = stack L2 ++ [v]
  | Undefined, Undefined => True
  | _, _ => False
  end.
Proof.
  intros Hg Hc. rewrite !call_run. unfold global_value.
  rewrite <- Hg, <- Hc.
  destruct (default LNil (globals L1 !! c_string name)) eqn:Ev;
    try (split; [exact Hg|]; eexists; unfold resolved, global_value;
         simpl stack; rewrite <- Hg, Ev; split; reflexivity).
  destruct (closures L1 f (globals L1) (map encode args)) as [[rs|err] g].
  - destruct (decode_results sig _); [|exact I]. repeat split.
  - split; [reflexivity|]. exists err. split; reflexivity.
Qed.

Lemma call_independent_of_stack_witness :
  let L1 := Demo.demo_state in
  let L2 :=
    mk_lua_State [] Demo.demo_globals Demo.demo_closures [Pop 1] in
  let args := [arg TInt 2; arg TInt 3] in
  (globals L1 = globals L2 /\ closures L1 = closures L2) /\
  call (conv := Demo.conversions) (Sig_Ret TInt) "add" args L1
  = Done 5 (returned (Sig_Ret TInt) "add" args Demo.demo_globals L1) /\
  call (conv := Demo.conversions) (Sig_Ret TInt) "add" args L2
  = Done 5 (returned (Sig_Ret TInt) "add" args Demo.demo_globals L2) /\
  match
    call (conv := Demo.conversions) (Sig_Ret TInt) "add" args L1,
    call (conv := Demo.conversions) (Sig_Ret TInt) "add" args L2
  with
  | Done r1 L1', Done r2 L2' =>
      r1 = r2 /\ globals L1' = globals L2' /\
      stack L1' = stack L1 /\ stack L2' = stack L2
  | Aborted L1', Aborted L2' =>
      globals L1' = globals L2' /\
      exists v : lua_value,
        stack L1' = stack L1 ++ [v] /\ stack L2' = stack L2 ++ [v]
  | Undefined, Undefined => True
  | _, _ => False
  end.
Proof.
  intros L1 L2 args. split; [split; reflexivity|].
  split; [reflexivity|]. split; [reflexivity|].
  apply
    (call_independent_of_stack (conv := Demo.conversions) (Sig_Ret TInt)
       "add" args L1 L2); reflexivity.
Defined.

(** X8: the name of a [lua_function] is used as a C string
    ([name.c_str()]): two names with the same characters before their
    first NUL behave as the same binding. *)
Theorem call_uses_name_as_c_string {conv : LuaConversions}
  (sig : signature) (name1 name2 : string) (args : list argument)
  (L : lua_State) :
  c_string name1 = c_string name2 ->
  call sig name1 args L = call sig name2 args L.
Proof.
  intros Hn. rewrite !call_run.
  unfold returned, called, resolved, global_value. now rewrite Hn.
Qed.

Lemma call_uses_name_as_c_string_witness :
  let name1 := String "a" (String "d" (String "d" (String Ascii.zero "x"))) in
  c_string name1 = c_string "add" /\
  call (conv := Demo.conversions) (Sig_Ret TInt) name1
    [arg TInt 2; arg TInt 3] Demo.demo_state
  = call (conv := Demo.conversions) (Sig_Ret TInt) "add"
      [arg TInt 2; arg TInt 3] Demo.demo_state.
Proof.
  intros name1. split; [reflexivity|].
  apply (call_uses_name_as_c_string (conv := Demo.conversions)).
  reflexivity.
Defined.

(** ** Values across an encode and a decode *)

(** X11: read as a [bool], every encoded argument but the [bool] false is
    true: the [int] 0, a float zero and the empty string are true, as the
    runtime has it. *)
Theorem encoded_argument_as_bool {conv : LuaConversions} (a : argument)
  (L : lua_State) :
  exists L1 L2 : lua_State,
    push_argument (projT1 a) (projT2 a) L = Done tt L1 /\
    pop_argument TBool (-1) L1
    = Done match a with existT TBool b => b | _ => true end L2.
Proof.
  rewrite push_argument_run. do 2 eexists. split; [reflexivity|].
  change (-1) with (- Z.of_nat (length [encode a])).
  erewrite pop_argument_top by reflexivity.
  destruct a as [[] v]; try reflexivity. destruct v; reflexivity.
Qed.

Lemma decode_nil {conv : LuaConversions} (T : cpp_type) (x : host T) :
  decode T LNil = Some x -> is_string_type T = false /\ x = zero_value T.
Proof. destruct T; simpl; intros [= <-]; split; reflexivity. Qed.

Lemma result_elements_decode {conv : LuaConversions} (sig : signature)
  (vs : list lua_value) (r : result_type sig) (i : nat) (T : cpp_type) :
  decode_results sig vs = Some r ->
  declared_types sig !! i = Some T ->
  exists x : host T,
    decode T (default LNil (vs !! i)) = Some x /\
    result_elements sig r !! i = Some (arg T x).
Proof.
  destruct sig as [|Ret|Ret1 Ret2 RetN]; simpl; intros Hd Hi.
  - discriminate.
  - destruct i as [|i]; [|discriminate]. injection Hi as <-.
    exists r. now split.
  - now apply (decode_all_elements (Ret1 :: Ret2 :: RetN) vs).
Qed.

(** X13: when the callee returns fewer values than the signature
    declares, a call that returns gives the zero of its type ([false], 0,
    the float zero) for each missing result; and a missing result is never
    declared as [std::string] in a call that returns. *)
Theorem missing_results_are_zero {conv : LuaConversions} (sig : signature)
  (name : string) (args : list argument) (L L' : lua_State)
  (r : result_type sig) (f : nat) (rs : list lua_value)
  (g : gmap string lua_value) :
  call sig name args L = Done r L' ->
  global_value L name = LFunction f ->
  closures L f (globals L) (map encode args) = (Returns rs, g) ->
  forall (i : nat) (T : cpp_type),
    declared_types sig !! i = Some T ->
    (length rs <= i)%nat ->
    is_string_type T = false /\
    result_elements sig r !! i = Some (arg T (zero_value T)).
Proof.
  intros Hc Hg Hf i T Hi Hlen. rewrite call_run, Hg, Hf in Hc.
  destruct (decode_results sig _) as [r'|] eqn:Ed; [|discriminate].
  injection Hc as -> _.
  destruct (result_elements_decode sig _ r i T Ed Hi) as (x & Hx & Hr).
  assert (Hn : (i < length (declared_types sig))%nat).
  { apply lookup_lt_is_Some_1. now exists T. }
  assert (HN : num_results sig = Z.of_nat (length (declared_types sig))).
  { destruct sig; simpl; lia. }
  rewrite HN, adjust_results_lookup in Hx by exact Hn.
  rewrite lookup_ge_None_2 in Hx by exact Hlen.
  destruct (decode_nil T x Hx) as [Hs ->]. now split.
Qed.

Lemma missing_results_are_zero_witness :
  let sig := Sig_Ret1_RetN TInt TBool [TDouble] in
  let L := Demo.demo_state in
  let args := [arg TInt 9] in
  let r : result_type sig := (9, (false, (S754_zero false, tt))) in
  (call (conv := Demo.conversions) sig "echo" args L
   = Done r (returned sig "echo" args (globals L) L) /\
   global_value L "echo" = LFunction 3 /\
   closures L 3%nat (globals L) (map encode args)
   = (Returns [LInteger 9], globals L)) /\
  forall (i : nat) (T : cpp_type),
    declared_types sig !! i = Some T ->
    (length [LInteger 9] <= i)%nat ->
    is_string_type T = false /\
    result_elements sig r !! i = Some (arg T (zero_value T)).
Proof.
  intros sig L args r. split; [repeat split|].
  apply
    (missing_results_are_zero (conv := Demo.conversions) sig "echo" args L
       (returned sig "echo" args (globals L) L) r 3%nat [LInteger 9]
       (globals L)); reflexivity.
Defined.

Lemma digits2_pos_lower (m : positive) :
  2 ^ (Z.pos (digits2_pos m) - 1) <= Z.pos m.
Proof.
  induction m as [m IH|m IH|]; simpl digits2_pos; [| |simpl; lia].
  - rewrite Pos2Z.inj_succ. change (Z.pos m~1) with (2 * Z.pos m + 1).
    replace (Z.succ (Z.pos (digits2_pos m)) - 1)
      with (Z.succ (Z.pos (digits2_pos m) - 1)) by lia.
    rewrite Z.pow_succ_r by lia. lia.
  - rewrite Pos2Z.inj_succ. change (Z.pos m~0) with (2 * Z.pos m).
    replace (Z.succ (Z.pos (digits2_pos m)) - 1)
      with (Z.succ (Z.pos (digits2_pos m) - 1)) by lia.
    rewrite Z.pow_succ_r by lia. lia.
Qed.

(** A [lua_Integer] of at most 53 bits is a [lua_Number], and converts
    back to itself. *)
Lemma integer_to_number_exact (z : Z) :
  Z.abs z < 2 ^ 53 ->
  LUA_MININTEGER <= z <= LUA_MAXINTEGER ->
  is_double (integer_to_number z) = true /\
  number_to_integer (integer_to_number z) = Some z.
Proof.
  intros Hz Hr.
  assert (Hm : forall (s : bool) (m : positive),
             Z.pos m < 2 ^ 53 ->
             is_double (binary_round double_prec double_emax s m 0) = true /\
             exists (m' : positive) (e : Z),
               binary_round double_prec double_emax s m 0
               = S754_finite s m' e /\
               e <= 0 /\ Z.pos m' = Z.pos m * 2 ^ (- e)).
  { intros s m Hlt.
    pose proof (digits2_pos_lower m) as Hd.
    pose proof (Pos2Z.is_pos (digits2_pos m)) as Hpos.
    set (d := Z.pos (digits2_pos m)) in *.
    assert (Hd53 : d <= 53).
    { destruct (Z_le_gt_dec d 53) as [Hle|Hgt]; [exact Hle|].
      assert (2 ^ 53 <= 2 ^ (d - 1)) by (apply Z.pow_le_mono_r; lia). lia. }
    destruct (Z.eq_dec d 53) as [He|Hne].
    - assert (Hb : bounded double_prec double_emax m 0 = true).
      { unfold bounded, canonical_mantissa. fold d. rewrite He.
        reflexivity. }
      assert (Hr' : binary_round double_prec double_emax s m 0
                    = S754_finite s m 0).
      { unfold binary_round, shl_align. fold d. rewrite He.
        change (fexp double_prec double_emax (53 + 0) - 0) with 0.
        cbv iota beta.
        apply binary_round_aux_canonical; [|unfold double_prec,
          double_emax; lia].
        unfold canonical_mantissa. fold d. now rewrite He. }
      rewrite Hr'. split; [exact Hb|].
      exists m, 0. split; [reflexivity|]. split; [lia|]. simpl. lia.
    - destruct (53 - d) as [|p|p] eqn:Ep; try lia.
      rewrite (binary_round_widen double_prec double_emax s m 0 p).
      + split.
        * unfold is_double. simpl valid_binary.
          unfold bounded, canonical_mantissa. apply andb_true_iff. split.
          -- apply Z.eqb_eq.
             rewrite pos_iter_nat, digits2_pos_shift, positive_nat_Z.
             fold d. unfold fexp, emin, double_prec, double_emax. lia.
          -- apply Z.leb_le. unfold double_prec, double_emax. lia.
        * exists (Pos.iter xO m p), (0 - Z.pos p).
          split; [reflexivity|]. split; [lia|].
          rewrite pos_iter_nat, pos_shift_value, positive_nat_Z.
          now replace (- (0 - Z.pos p)) with (Z.pos p) by lia.
      + unfold fexp, emin, double_prec, double_emax. fold d. lia.
      + unfold double_prec, double_emax. lia. }
  assert (Hback : forall (s : bool) (m m' : positive) (e : Z),
             e <= 0 -> Z.pos m' = Z.pos m * 2 ^ (- e) ->
             LUA_MININTEGER <= (if s then - Z.pos m else Z.pos m)
               <= LUA_MAXINTEGER ->
             number_to_integer (S754_finite s m' e)
             = Some (if s then - Z.pos m else Z.pos m)).
  { intros s m m' e He Hv Hrange. unfold number_to_integer.
    assert (Hp : 0 < 2 ^ (- e)) by (apply Z.pow_pos_nonneg; lia).
    assert (Hin : (LUA_MININTEGER <=? (if s then - Z.pos m else Z.pos m))
                  && ((if s then - Z.pos m else Z.pos m) <=? LUA_MAXINTEGER)
                  = true).
    { apply andb_true_iff. split; apply Z.leb_le; lia. }
    destruct (0 <=? e) eqn:E0.
    - apply Z.leb_le in E0. assert (e = 0) as -> by lia.
      simpl in Hv. rewrite Z.pow_0_r, Z.mul_1_r.
      replace (Z.pos m') with (Z.pos m) by lia. now rewrite Hin.
    - rewrite Hv, Z_mod_mult, Z.eqb_refl, Z_div_mult by lia.
      now rewrite Hin. }
  unfold integer_to_number, binary_normalize.
  destruct z as [|m|m].
  - split; reflexivity.
  - destruct (Hm false m) as (Hv & m' & e & Hr' & He & Hval);
      [simpl in Hz; lia|].
    split; [exact Hv|]. rewrite Hr'.
    apply (Hback false m m' e He Hval). exact Hr.
  - destruct (Hm true m) as (Hv & m' & e & Hr' & He & Hval);
      [simpl in Hz; lia|].
    split; [exact Hv|]. rewrite Hr'.
    apply (Hback true m m' e He Hval). exact Hr.
Qed.

(** X9: an [int] read back as a [double] is exact.  The slot that
    [push_argument<int>] pushes decodes as a [double] that is a valid
    [lua_Number], and that [double], pushed with [push_argument<double>],
    decodes as the [int] one started from. *)
Theorem int_survives_double {conv : LuaConversions} (z : Z)
  (L L0 : lua_State) :
  int_range z ->
  exists d : spec_float,
    is_double d = true /\
    (exists L1 L2 : lua_State,
       push_argument TInt z L = Done tt L1 /\
       pop_argument TDouble (-1) L1 = Done d L2) /\
    (exists L1 L2 : lua_State,
       push_argument TDouble d L0 = Done tt L1 /\
       pop_argument TInt (-1) L1 = Done z L2).
Proof.
  intros Hz. pose proof Hz as Hz'.
  unfold int_range, INT_MIN, INT_MAX in Hz'.
  destruct (integer_to_number_exact z) as [Hv Hb];
    [lia|unfold LUA_MININTEGER, LUA_MAXINTEGER; lia|].
  exists (integer_to_number z). split; [exact Hv|]. split.
  - change (push_argument TInt z L)
      with (push_argument (projT1 (arg TInt z)) (projT2 (arg TInt z)) L).
    rewrite push_argument_run. do 2 eexists. split; [reflexivity|].
    change (-1) with (- Z.of_nat (length [encode (arg TInt z)])).
    erewrite pop_argument_top by reflexivity. reflexivity.
  - set (d := integer_to_number z) in *.
    change (push_argument TDouble d L0)
      with (push_argument (projT1 (arg TDouble d)) (projT2 (arg TDouble d))
              L0).
    rewrite push_argument_run. do 2 eexists. split; [reflexivity|].
    change (-1) with (- Z.of_nat (length [encode (arg TDouble d)])).
    erewrite pop_argument_top by reflexivity.
    simpl decode. rewrite Hb. simpl default. now rewrite to_int_id.
Qed.

Lemma int_survives_double_witness :
  let L := Demo.demo_state in
  int_range (-7) /\
  exists d : spec_float,
    is_double d = true /\
    (exists L1 L2 : lua_State,
       push_argument TInt (-7) L = Done tt L1 /\
       pop_argument (conv := Demo.conversions) TDouble (-1) L1
       = Done d L2) /\
    (exists L1 L2 : lua_State,
       push_argument TDouble d L = Done tt L1 /\
       pop_argument (conv := Demo.conversions) TInt (-1) L1
       = Done (-7) L2).
Proof.
  intros L.
  assert (Hr : int_range (-7)) by (unfold int_range, INT_MIN, INT_MAX; lia).
  split; [exact Hr|].
  apply (int_survives_double (conv := Demo.conversions) (-7) L L Hr).
Defined.

(** X10: what [pop_argument<T>] returned can be passed back without
    loss, for [T] one of [bool], [int], [double] and [std::string]:
    whatever the slot held, the returned value, pushed with
    [push_argument<T>] and decoded again, comes back as it is. *)
Theorem decoded_value_round_trips {conv : LuaConversions} (T : cpp_type)
  (index : Z) (L L' L0 : lua_State) (x : host T) :
  T <> TFloat ->
  pop_argument T index L = Done x L' ->
  exists L1 L2 : lua_State,
    push_argument T x L0 = Done tt L1 /\
    pop_argument T (-1) L1 = Done x L2.
Proof.
  intros HT Hp. rewrite pop_argument_run in Hp.
  destruct (decode T (index2value L index)) as [y|] eqn:Ed; [|discriminate].
  injection Hp as -> _.
  change (push_argument T x L0)
    with (push_argument (projT1 (arg T x)) (projT2 (arg T x)) L0).
  rewrite push_argument_run. do 2 eexists. split; [reflexivity|].
  change (-1) with (- Z.of_nat (length [encode (arg T x)])).
  erewrite pop_argument_top by reflexivity.
  assert (Hd : decode T (encode (arg T x)) = Some x).
  { destruct T; simpl in *.
    - now destruct x.
    - injection Ed as <-. now rewrite to_int_id by apply to_int_range.
    - now destruct HT.
    - reflexivity.
    - assert (Hn : nul_free x = true).
      { destruct (index2value L index); try discriminate;
          injection Ed as <-; apply c_string_is_nul_free. }
      now rewrite c_string_idemp, c_string_nul_free. }
  now rewrite Hd.
Qed.

Lemma decoded_value_round_trips_witness :
  let L := push_value (LString Demo.with_nul) Demo.demo_state in
  (TString <> TFloat /\
   pop_argument (conv := Demo.conversions) TString (-1) L
   = Done "a"%string
       (mk_lua_State (stack L) (globals L) (closures L) [ToString (-1)])) /\
  exists L1 L2 : lua_State,
    push_argument TString "a"%string Demo.demo_state = Done tt L1 /\
    pop_argument (conv := Demo.conversions) TString (-1) L1
    = Done "a"%string L2.
Proof.
  intros L. split; [split; [discriminate|reflexivity]|].
  apply
    (decoded_value_round_trips (conv := Demo.conversions) TString (-1) L
       (mk_lua_State (stack L) (globals L) (closures L) [ToString (-1)])
       Demo.demo_state "a"%string); [discriminate|reflexivity].
Defined.

(** X12: [push_argument] pushes a value the runtime can hold and the
    callee can tell from "no argument": for an argument that is a value
    of its type the pushed slot is never nil, an integer fits
    [lua_Integer], a float is a valid [lua_Number] (a [float] widens to a
    [double]), and a string has no NUL character. *)
Theorem push_argument_pushes_valid {conv : LuaConversions} (a : argument)
  (L : lua_State) :
  well_formed (projT1 a) (projT2 a) ->
  exists L' : lua_State,
    push_argument (projT1 a) (projT2 a) L = Done tt L' /\
    stack L' = stack L ++ [encode a] /\
    encode a <> LNil /\
    lua_value_ok (encode a) /\
    forall s : string, encode a = LString s -> nul_free s = true.
Proof.
  intros Hw. rewrite push_argument_run. eexists.
  split; [reflexivity|]. split; [reflexivity|].
  destruct a as [[] v]; simpl in *;
    (split; [discriminate|]); (split; [|intros s; try discriminate]).
  - exact I.
  - unfold int_range, INT_MIN, INT_MAX in Hw.
    unfold LUA_MININTEGER, LUA_MAXINTEGER. lia.
  - now apply float_to_double_valid.
  - exact Hw.
  - exact I.
  - intros [= <-]. apply c_string_is_nul_free.
Qed.

Lemma push_argument_pushes_valid_witness :
  let a := arg TFloat (S754_finite false 12582912 (-23)) in
  let L := Demo.demo_state in
  well_formed (projT1 a) (projT2 a) /\
  exists L' : lua_State,
    push_argument (projT1 a) (projT2 a) L = Done tt L' /\
    stack L' = stack L ++ [encode a] /\
    encode a <> LNil /\
    lua_value_ok (encode a) /\
    forall s : string, encode a = LString s -> nul_free s = true.
Proof.
  intros a L.
  assert (Hw : well_formed (projT1 a) (projT2 a)) by reflexivity.
  split; [exact Hw|].
  apply (push_argument_pushes_valid (conv := Demo.conversions) a L Hw).
Defined.

(** X15: a slot that holds neither a number nor a string (nil, a boolean,
    a function, a table, or no slot) reads as 0 with [pop_argument<int>]
    and as the float zero with [pop_argument<float>] and
    [pop_argument<double>], with the stack left as it is: [true] read as an
    [int] is 0, not 1. *)
Theorem pop_argument_number_of_non_number {conv : LuaConversions}
  (index : Z) (L : lua_State) :
  lua_isstring_value (index2value L index) = false ->
  let L1 (T : cpp_type) :=
    mk_lua_State (stack L) (globals L) (closures L)
      (calls L ++ [read_call T index]) in
  pop_argument TInt index L = Done 0 (L1 TInt) /\
  pop_argument TFloat index L = Done (S754_zero false) (L1 TFloat) /\
  pop_argument TDouble index L = Done (S754_zero false) (L1 TDouble).
Proof.
  intros Hv L1. rewrite !pop_argument_run.
  pose proof (poke_same L index) as Hp.
  destruct (index2value L index); try discriminate; simpl;
    rewrite Hp; repeat split.
Qed.

Lemma pop_argument_number_of_non_number_witness :
  let L := push_value (LBoolean true) Demo.demo_state in
  let L1 (T : cpp_type) :=
    mk_lua_State (stack L) (globals L) (closures L)
      (calls L ++ [read_call T (-1)]) in
  lua_isstring_value (index2value L (-1)) = false /\
  pop_argument (conv := Demo.conversions) TInt (-1) L = Done 0 (L1 TInt) /\
  pop_argument (conv := Demo.conversions) TFloat (-1) L
  = Done (S754_zero false) (L1 TFloat) /\
  pop_argument (conv := Demo.conversions) TDouble (-1) L
  = Done (S754_zero false) (L1 TDouble).
Proof.
  intros L L1. split; [reflexivity|].
  apply
    (pop_argument_number_of_non_number (conv := Demo.conversions) (-1) L).
  reflexivity.
Defined.
